(** * @ndk/fs: walker, copy/symlink mirrors and removal

    A shallow embedding of [src/@ndk/fs/ndk.fs.js].  The JavaScript code is
    written against Node's promise based [fs] API; here every [async]
    function becomes a state-passing function over a model of the
    filesystem, an [await]ed promise that rejects becomes [Fail], and a
    recursion that does not settle within the given depth is [Pending]. *)

From Stdlib Require Import ZArith.
From stdpp Require Import gmap strings list fin_maps.

Open Scope Z_scope.

(** ** Paths

    A path is the list of its segments, already normalised: ['.'] is the
    empty list, [path.join] is concatenation, [path.dirname] drops the last
    segment and [path.resolve] is the identity because every path is read
    from the same working directory. *)

Abbreviation path := (list string).

Definition join (a b : path) : path := a ++ b.
Definition dirname (p : path) : path := removelast p.
Definition resolve (p : path) : path := p.

(** [inside d q]: [q] names an entry strictly below [d]. *)
Definition inside (d q : path) : Prop := d `prefix_of` q ∧ q ≠ d.

#[global] Instance inside_dec d q : Decision (inside d q).
Proof. unfold inside. apply _. Defined.

(** ** The filesystem behind Node's [fs] module

    Entries are keyed by their full path.  The root directory [[]] always
    exists.  Symbolic links store their target path; they are followed at
    the last component of a path only. *)

(** What a path can hold. *)
Inductive node :=
| NFile (data : string)
| NLink (target : path)
| NDir.

(** The type of an entry, as [Dirent] and [Stats] report it. *)
Inductive kind := KFile | KLink | KDir.

Definition kind_of (nd : node) : kind :=
  match nd with NFile _ => KFile | NLink _ => KLink | NDir => KDir end.

#[global] Instance node_eq_dec : EqDecision node.
Proof. solve_decision. Defined.
#[global] Instance kind_eq_dec : EqDecision kind.
Proof. solve_decision. Defined.

Abbreviation fs := (gmap path node).

(** What is at [p]; the root is a directory. *)
Definition fs_get (f : fs) (p : path) : option node :=
  match p with
  | [] => Some NDir
  | _ => f !! p
  end.

(** Every entry lives in a directory. *)
Definition wf (f : fs) : Prop :=
  ∀ p nd, f !! p = Some nd → p ≠ [] ∧ fs_get f (dirname p) = Some NDir.

(** The same, as a check. *)
Definition wfb (f : fs) : bool :=
  forallb (λ '(p, _), bool_decide (p ≠ [] ∧ fs_get f (dirname p) = Some NDir))
          (map_to_list f).

(** The codes of rejected promises; [ETYPE] stands for a TypeError. *)
Inductive errno := ENOENT | EEXIST | ENOTDIR | EISDIR | EINVAL | ELOOP | ETYPE.

#[global] Instance errno_eq_dec : EqDecision errno.
Proof. solve_decision. Defined.

(** Outcome of an awaited promise. *)
Inductive res (A : Type) :=
| Ok (a : A)
| Fail (e : errno)
| Pending.
Arguments Ok {A} a.
Arguments Fail {A} e.
Arguments Pending {A}.

(** A filesystem operation: its outcome and the filesystem it leaves. *)
Definition fsop (A : Type) : Type := fs → res A * fs.

(** The number of links a lookup follows before it gives up with ELOOP. *)
Definition MAXSYMLINKS : nat := 40.

(** Follow the symbolic links at [p]; yields the path reached and what is
    there. *)
Fixpoint follow (n : nat) (f : fs) (p : path) : res (path * option node) :=
  match fs_get f p with
  | Some (NLink t) =>
      match n with
      | O => Fail ELOOP
      | S n' => follow n' f t
      end
  | o => Ok (p, o)
  end.

(** [fs.promises.stat] (follows links) and [fs.promises.lstat]. *)
Definition stat (p : path) : fsop node := λ f,
  match follow MAXSYMLINKS f p with
  | Ok (_, Some nd) => (Ok nd, f)
  | Ok (_, None) => (Fail ENOENT, f)
  | Fail e => (Fail e, f)
  | Pending => (Pending, f)
  end.

Definition lstat (p : path) : fsop node := λ f,
  match fs_get f p with
  | Some nd => (Ok nd, f)
  | None => (Fail ENOENT, f)
  end.

(** [fs.existsSync]: an [access] check, so links are followed. *)
Definition existsSync (f : fs) (p : path) : bool :=
  match stat p f with
  | (Ok _, _) => true
  | _ => false
  end.

(** [fs.Dirent], as produced by [readdir] with [withFileTypes]. *)
Record dirent := Dirent { name : string; d_kind : kind }.

Definition isDirectory (d : dirent) : bool := bool_decide (d_kind d = KDir).
Definition isFile (d : dirent) : bool := bool_decide (d_kind d = KFile).

(** [Stats.isSymbolicLink], of the result of [lstat]. *)
Definition isSymbolicLink (nd : node) : bool := bool_decide (kind_of nd = KLink).

(** The name of [k] when [k] is an entry of directory [p]. *)
Definition child_of (p k : path) : option string :=
  match drop (length p) k with
  | [n] => if decide (take (length p) k = p) then Some n else None
  | _ => None
  end.

(** The entries of the directory [p], in the enumeration order of the map. *)
Definition listing (f : fs) (p : path) : list dirent :=
  omap (λ '(k, nd), (λ n, Dirent n (kind_of nd)) <$> child_of p k) (map_to_list f).

(** [fs.promises.readdir(p, { withFileTypes: true })]. *)
Definition readdir (p : path) : fsop (list dirent) := λ f,
  match fs_get f p with
  | Some NDir => (Ok (listing f p), f)
  | Some _ => (Fail ENOTDIR, f)
  | None => (Fail ENOENT, f)
  end.

(** Create the entry [p] in an existing directory. *)
Definition create (p : path) (nd : node) : fsop unit := λ f,
  match fs_get f (dirname p) with
  | Some NDir => (Ok tt, <[p := nd]> f)
  | Some _ => (Fail ENOTDIR, f)
  | None => (Fail ENOENT, f)
  end.

(** Create the directories that are missing on the way from [made] down to
    [made ++ todo].  A file in the way is an error; so is a link, unless it
    is the last component and leads to a directory. *)
Fixpoint mkdirp (made todo : path) : fsop unit := λ f,
  match todo with
  | [] => (Ok tt, f)
  | n :: rest =>
      let p := made ++ [n] in
      match fs_get f p with
      | None => mkdirp p rest (<[p := NDir]> f)
      | Some NDir => mkdirp p rest f
      | Some (NLink _) =>
          match rest, stat p f with
          | [], (Ok NDir, _) => (Ok tt, f)
          | [], _ => (Fail EEXIST, f)
          | _, _ => (Fail ENOTDIR, f)
          end
      | Some (NFile _) =>
          match rest with
          | [] => (Fail EEXIST, f)
          | _ => (Fail ENOTDIR, f)
          end
      end
  end.

(** [fs.promises.mkdir(p, { recursive })]. *)
Definition mkdir (p : path) (recursive : bool) : fsop unit := λ f,
  if recursive then mkdirp [] p f
  else match fs_get f p with
       | Some _ => (Fail EEXIST, f)
       | None => create p NDir f
       end.

(** [fs.constants.COPYFILE_EXCL] *)
Definition COPYFILE_EXCL : Z := 1.

(** [fs.promises.copyFile(src, dest, flags)]: the data of the file [src]
    (links followed) is written at [dest]; with [COPYFILE_EXCL] only when
    nothing is there, otherwise through the links at [dest], over the file
    that is there or as a new file. *)
Definition copyFile (src dest : path) (flags : Z) : fsop unit := λ f,
  match stat src f with
  | (Ok (NFile data), _) =>
      if bool_decide (Z.land flags COPYFILE_EXCL ≠ 0) then
        match fs_get f dest with
        | Some _ => (Fail EEXIST, f)
        | None => create dest (NFile data) f
        end
      else
        match follow MAXSYMLINKS f dest with
        | Ok (q, None) => create q (NFile data) f
        | Ok (q, Some (NFile _)) => (Ok tt, <[q := NFile data]> f)
        | Ok (q, Some _) => (Fail EISDIR, f)
        | Fail e => (Fail e, f)
        | Pending => (Pending, f)
        end
  | (Ok _, _) => (Fail EISDIR, f)
  | (Fail e, _) => (Fail e, f)
  | (Pending, _) => (Pending, f)
  end.

(** [fs.promises.symlink(target, p)]. *)
Definition symlinkFile (target p : path) : fsop unit := λ f,
  match fs_get f p with
  | Some _ => (Fail EEXIST, f)
  | None => create p (NLink target) f
  end.

(** [fs.promises.readlink]. *)
Definition readlink (p : path) : fsop path := λ f,
  match fs_get f p with
  | Some (NLink t) => (Ok t, f)
  | Some _ => (Fail EINVAL, f)
  | None => (Fail ENOENT, f)
  end.

(** The entry [p] and everything below it taken out. *)
Definition remove_tree (p : path) (f : fs) : fs :=
  filter (λ kv, ¬ p `prefix_of` kv.1) f.

(** [fs.promises.rmdir(p, { recursive: true })] is a primitive of Node, not
    code of this module, and what it does changed with the runtime; both
    behaviours are modelled, after Node's documentation of the call.

    Up to Node 14 the recursive mode is an [rm -rf]: the entry and
    everything below it go away, whatever the entry is, and a path where
    nothing is, is no error.

    Since Node 16 the path is looked at with [stat] first, so a missing
    path (or a link that leads nowhere) is rejected with ENOENT; a
    directory, or a link that leads to one, is removed with all it holds;
    anything else is handed to the plain [rmdir], which rejects with
    ENOTDIR. *)
Inductive runtime := Node12 | Node16.

#[global] Instance runtime_eq_dec : EqDecision runtime.
Proof. solve_decision. Defined.

Definition rmdir_recursive (rt : runtime) (p : path) : fsop unit := λ f,
  match rt with
  | Node12 => (Ok tt, remove_tree p f)
  | Node16 =>
      match stat p f with
      | (Ok NDir, _) => (Ok tt, remove_tree p f)
      | (Ok _, _) => (Fail ENOTDIR, f)
      | (Fail e, _) => (Fail e, f)
      | (Pending, _) => (Pending, f)
      end
  end.

(** ** JavaScript values and the promise monad *)

(** What a visitor may hand back to the walker. *)
Inductive jsval :=
| VUndefined
| VNull
| VBool (b : bool)
| VNumber (n : Z)
| VString (s : string).

#[global] Instance jsval_eq_dec : EqDecision jsval.
Proof. solve_decision. Defined.

(** [v !== false] *)
Definition strict_ne_false (v : jsval) : bool := negb (bool_decide (v = VBool false)).

(** ToInt32, the conversion applied to both operands of [&]. *)
Definition ToInt32 (n : Z) : Z := (n + 2 ^ 31) mod 2 ^ 32 - 2 ^ 31.

(** A [{number} flags] parameter; [None] when the caller left it out. *)
Definition flag_bits (flags : option Z) : Z :=
  match flags with
  | Some n => ToInt32 n
  | None => 0
  end.

(** A number used as a condition. *)
Definition truthy (n : Z) : bool := negb (n =? 0).

(** The [constants] of the module. *)
Definition COPY_EXCL : Z := 1.
Definition COPY_RMNONEXISTENT : Z := 2.
Definition SYMLINK_EXCL : Z := 4.
Definition SYMLINK_RMNONEXISTENT : Z := 8.
Definition WALK_FILEFIRST : Z := 16.
Definition WRITE_EXCL : Z := 32.

(** The filesystem together with the variables a closure has captured. *)
Record world (U : Type) := World { w_fs : fs; w_user : U }.
Arguments World {U} w_fs w_user.
Arguments w_fs {U} w.
Arguments w_user {U} w.

(** An [async] computation: it settles with an outcome and leaves a world.
    A rejection keeps what was done before it. *)
Definition M (U A : Type) : Type := world U → res A * world U.

Definition ret {U A} (a : A) : M U A := λ w, (Ok a, w).

Definition bind {U A B} (c : M U A) (k : A → M U B) : M U B := λ w,
  match c w with
  | (Ok a, w') => k a w'
  | (Fail e, w') => (Fail e, w')
  | (Pending, w') => (Pending, w')
  end.

Notation "x <- c1 ;; c2" := (bind c1 (λ x, c2))
  (at level 100, c1 at next level, right associativity).
Notation "c1 ;;; c2" := (bind c1 (λ _, c2))
  (at level 100, c2 at level 200, right associativity).

Definition throw {U A} (e : errno) : M U A := λ w, (Fail e, w).

(** [await] on a filesystem operation. *)
Definition lift {U A} (op : fsop A) : M U A := λ w,
  let (r, f') := op (w_fs w) in (r, World f' (w_user w)).

(** Reading and writing the captured variables. *)
Definition get_user {U} : M U U := λ w, (Ok (w_user w), w).
Definition set_user {U} (u : U) : M U unit := λ w, (Ok tt, World (w_fs w) u).

(** Run [c] with a fresh local variable; the variable dies with the call. *)
Definition with_local {U V A} (v : V) (c : M V A) : M U A := λ w,
  let (r, w') := c (World (w_fs w) v) in (r, World (w_fs w') (w_user w)).

(** [for (const x of l) { await body(x) }] *)
Fixpoint for_of {U A} (l : list A) (body : A → M U unit) : M U unit :=
  match l with
  | [] => ret tt
  | x :: l' => body x ;;; for_of l' body
  end.

(** ** The walker *)

(** [@callback Walker] *)
Definition visitor (U : Type) : Type := path → dirent → M U jsval.

(** An argument of [walk]: left out, a number, or a function. *)
Inductive jsarg (U : Type) :=
| AUndefined
| ANumber (n : Z)
| AFunction (w : visitor U).
Arguments AUndefined {U}.
Arguments ANumber {U} n.
Arguments AFunction {U} w.

Definition is_function {U} (a : jsarg U) : bool :=
  match a with AFunction _ => true | _ => false end.

(** [a & c]; [undefined] and functions convert to [NaN], hence to 0. *)
Definition arg_bits {U} (a : jsarg U) : Z :=
  match a with
  | ANumber n => ToInt32 n
  | _ => 0
  end.

(** [a(p, d)]; calling what is not a function throws a TypeError. *)
Definition call {U} (a : jsarg U) (p : path) (d : dirent) : M U jsval :=
  match a with
  | AFunction w => w p d
  | _ => throw ETYPE
  end.

(** [@typedef WalkOptions] *)
Record WalkOptions (U : Type) := {
  root : path;
  flags : jsarg U;
  walker : jsarg U
}.
Arguments root {U} _.
Arguments flags {U} _.
Arguments walker {U} _.

Fixpoint __walk {U} (fuel : nat) (path : path) (options : WalkOptions U) : M U unit :=
  match fuel with
  | O => λ w, (Pending, w)
  | S fuel' =>
      files <- lift (readdir (join (root options) path)) ;;
      for_of files (λ file,
        let filePath := join path [name file] in
        if isDirectory file then
          if truthy (Z.land (arg_bits (flags options)) WALK_FILEFIRST) then
            __walk fuel' filePath options ;;;
            call (walker options) filePath file ;;;
            ret tt
          else
            needNested <- call (walker options) filePath file ;;
            if strict_ne_false needNested then __walk fuel' filePath options
            else ret tt
        else
          call (walker options) filePath file ;;;
          ret tt)
  end.

Definition walk {U} (fuel : nat) (path : path) (flags walker : jsarg U) : M U unit :=
  let '(flags, walker) :=
    if is_function flags then (walker, flags) else (flags, walker) in
  __walk fuel [] {| root := path; flags := flags; walker := walker |}.

(** ** Removal

    From here on the code runs on a runtime [nodejs], which decides what
    the recursive [rmdir] under [remove] does. *)

Section runtime.
Variable nodejs : runtime.

Definition remove {U} (path : path) : M U unit :=
  lift (rmdir_recursive nodejs path).

(** ** Copy mirror *)

(** The [existentPaths] variable of a mirror: an array, or [false]. *)
Abbreviation existent := (option (list path)).

(** [if (existentPaths) { existentPaths.push(destPath) }] *)
Definition push (destPath : path) : M existent unit :=
  existentPaths <- get_user ;;
  match existentPaths with
  | Some l => set_user (Some (l ++ [destPath]))
  | None => ret tt
  end.

(** [existentPaths.includes(destPath)]; [false] has no such method. *)
Definition includes (existentPaths : existent) (destPath : path) : M existent bool :=
  match existentPaths with
  | Some l => ret (bool_decide (destPath ∈ l))
  | None => throw ETYPE
  end.

Definition copy_walker (src dest : path) (recursive : bool) : visitor existent :=
  λ path dirent,
    let destPath := join dest path in
    push destPath ;;;
    (if isDirectory dirent then lift (mkdir destPath recursive)
     else lift (copyFile (join src path) destPath 0)) ;;;
    ret VUndefined.

Definition prune_walker (dest : path) : visitor existent :=
  λ path _,
    let destPath := join dest path in
    existentPaths <- get_user ;;
    found <- includes existentPaths destPath ;;
    if negb found then
      remove destPath ;;;
      ret (VBool false)
    else ret VUndefined.

Definition prune_options (dest : path) : WalkOptions existent :=
  {| root := dest; flags := AUndefined; walker := AFunction (prune_walker dest) |}.

Definition __copy {U} (fuel : nat) (src dest : path) (flags : option Z) : M U unit :=
  let recursive := negb (truthy (Z.land (flag_bits flags) COPY_EXCL)) in
  let existentPaths : existent :=
    if truthy (Z.land (flag_bits flags) COPY_RMNONEXISTENT) then Some [] else None in
  with_local existentPaths (
    lift (mkdir dest recursive) ;;;
    __walk fuel [] {| root := src; flags := AUndefined;
                      walker := AFunction (copy_walker src dest recursive) |} ;;;
    existentPaths <- get_user ;;
    if bool_decide (is_Some existentPaths) then __walk fuel [] (prune_options dest)
    else ret tt).

Definition copy {U} (fuel : nat) (src dest : path) (flags : option Z) : M U unit :=
  srcStat <- lift (stat src) ;;
  if bool_decide (kind_of srcStat = KDir) then __copy fuel src dest flags
  else
    let excl := Z.land (flag_bits flags) COPY_EXCL in
    let fsFlags := if truthy excl then COPYFILE_EXCL else 0 in
    (if negb (truthy excl) then lift (mkdir (dirname dest) true) else ret tt) ;;;
    lift (copyFile src dest fsFlags).

(** ** Symlink mirror *)

Definition __symlinkFile {U} (src dest : path) (flags : option Z) : M U unit :=
  let resolvedSrc := resolve src in
  exists_dest <- (λ w, (Ok (existsSync (w_fs w) dest), w)) ;;
  if truthy (Z.land (flag_bits flags) SYMLINK_EXCL) || negb exists_dest then
    lift (symlinkFile resolvedSrc dest)
  else
    destStat <- lift (lstat dest) ;;
    if isSymbolicLink destStat then
      link <- lift (readlink dest) ;;
      if negb (bool_decide (resolvedSrc = link)) then
        remove dest ;;;
        lift (symlinkFile resolvedSrc dest)
      else ret tt
    else
      remove dest ;;;
      lift (symlinkFile resolvedSrc dest).

Definition symlink_walker (src dest : path) (recursive : bool) : visitor existent :=
  λ path dirent,
    let destPath := join dest path in
    push destPath ;;;
    (if isDirectory dirent then lift (mkdir destPath recursive)
     else __symlinkFile (join src path) destPath None) ;;;
    ret VUndefined.

Definition __symlink {U} (fuel : nat) (src dest : path) (flags : option Z) : M U unit :=
  let recursive := negb (truthy (Z.land (flag_bits flags) SYMLINK_EXCL)) in
  let existentPaths : existent :=
    if truthy (Z.land (flag_bits flags) SYMLINK_RMNONEXISTENT) then Some [] else None in
  with_local existentPaths (
    lift (mkdir dest recursive) ;;;
    __walk fuel [] {| root := src; flags := AUndefined;
                      walker := AFunction (symlink_walker src dest recursive) |} ;;;
    existentPaths <- get_user ;;
    if bool_decide (is_Some existentPaths) then __walk fuel [] (prune_options dest)
    else ret tt).

Definition symlink {U} (fuel : nat) (src dest : path) (flags : option Z) : M U unit :=
  srcStat <- lift (stat src) ;;
  if bool_decide (kind_of srcStat = KDir) then __symlink fuel src dest flags
  else
    (if negb (truthy (Z.land (flag_bits flags) SYMLINK_EXCL))
     then lift (mkdir (dirname dest) true) else ret tt) ;;;
    __symlinkFile src dest flags.

(** * Vocabulary of the properties

    Observers, predicates and sample filesystems used to state what the
    code does. *)

(** A logged visitor call: the path and entry it was made for, and the way
    it settled. *)
Definition entry : Type := path * dirent * res jsval.

Definition e_path (e : entry) : path := e.1.1.
Definition e_dirent (e : entry) : dirent := e.1.2.
Definition e_ret (e : entry) : res jsval := e.2.

(** [logged v] behaves like [v] and appends every call to a log kept next
    to the state of [v]. *)
Definition logged {U} (v : visitor U) : visitor (list entry * U) := λ p d w,
  let (r, w') := v p d (World (w_fs w) (w_user w).2) in
  (r, World (w_fs w') ((w_user w).1 ++ [(p, d, r)], w_user w')).

Definition trace {U} (w : world (list entry * U)) : list entry := (w_user w).1.

(** [a] is logged before [b]. *)
Definition before (L : list entry) (a b : entry) : Prop :=
  ∃ L1 L2 L3, L = L1 ++ a :: L2 ++ b :: L3.

(** Nothing inside an entry whose visitor returned [false] is visited. *)
Definition pruned (L : list entry) : Prop :=
  ∀ a b, a ∈ L → b ∈ L → e_ret a = Ok (VBool false) → ¬ inside (e_path a) (e_path b).

(** No entry is visited before a directory that contains it. *)
Definition preorder (L : list entry) : Prop :=
  ∀ a b, before L a b → ¬ inside (e_path b) (e_path a).


(** All of [L] was logged for entries of the directory [base]. *)
Definition below (base : path) (L : list entry) : Prop :=
  ∀ e, e ∈ L → inside base (e_path e).

(** All of [L] was logged for the listed entries [done] of [base], or
    for what is inside them. *)
Definition among (base : path) (done : list dirent) (L : list entry) : Prop :=
  ∀ e, e ∈ L → ∃ x, x ∈ done ∧ base ++ [name x] `prefix_of` e_path e.

(** What holds of the log of a pre-order walk. *)
Definition pre_ok (L : list entry) : Prop := pruned L ∧ preorder L.


(** A visitor that leaves the filesystem alone. *)
Definition read_only {U} (v : visitor U) : Prop :=
  ∀ p d w r w', v p d w = (r, w') → w_fs w' = w_fs w.



(** The tree used by the test-suite: [f1.txt], [p1/{p1f1.txt, p1f2.txt}] and
    [p2/{p2f1.txt}] below [walk]. *)
Definition example_tree : fs :=
  list_to_map
    [ (["walk"], NDir);
      (["walk"; "f1.txt"], NFile "f1");
      (["walk"; "p1"], NDir);
      (["walk"; "p1"; "p1f1.txt"], NFile "p1f1");
      (["walk"; "p1"; "p1f2.txt"], NFile "p1f2");
      (["walk"; "p2"], NDir);
      (["walk"; "p2"; "p2f1.txt"], NFile "p2f1") ].

(** The visitor of the test-suite that returns [false] for the directory
    [p1]. *)
Definition skip_p1 : visitor unit := λ path dirent,
  if isDirectory dirent && bool_decide (path = ["p1"]) then ret (VBool false)
  else ret VUndefined.


(** A file [a/file.txt] and an empty directory [b]. *)
Definition link_fs : fs :=
  list_to_map
    [ (["a"], NDir); (["a"; "file.txt"], NFile "data"); (["b"], NDir) ].

(** The state left by a first [symlink('a/file.txt', 'b/l')]. *)
Definition linked_once : world unit :=
  (symlink 1 ["a"; "file.txt"] ["b"; "l"] None (World link_fs tt)).2.

(** [dst/x] is a link whose target is gone. *)
Definition dangling_fs : fs :=
  list_to_map
    [ (["src"], NDir); (["src"; "x"], NFile "data");
      (["dst"], NDir); (["dst"; "x"], NLink ["gone"]) ].

(** Forget the log. *)
Definition erase {U} (w : world (list entry * U)) : world U :=
  World (w_fs w) (w_user w).2.

(** The options of the reconciliation walk, with the visitor observed. *)
Definition observed_prune (dest : path) : WalkOptions (list entry * existent) :=
  {| root := dest; flags := AUndefined; walker := AFunction (logged (prune_walker dest)) |}.

(** What the reconciliation visitor did for a logged entry: nothing for a
    recorded path; otherwise it returned [false], and the entry and all
    below it are gone from [f]; or else, since Node 16 only, the removal
    was rejected and so was the call. *)
Definition verdict (dest : path) (V : list path) (f : fs) (e : entry) : Prop :=
  if decide (dest ++ e_path e ∈ V) then e_ret e = Ok VUndefined
  else (e_ret e = Ok (VBool false) ∧ ∀ k, dest ++ e_path e `prefix_of` k → f !! k = None) ∨
       (nodejs = Node16 ∧ ∃ error, e_ret e = Fail error).

(** The log of a reconciliation of [f] holds a call for every entry of
    [dest], and for every entry of each recorded directory it holds a call
    for: the walk has entered the directories it kept. *)
Definition entered (dest : path) (V : list path) (f : fs) (L : list entry) : Prop :=
  (∀ n nd, f !! (dest ++ [n]) = Some nd → ∃ b, b ∈ L ∧ e_path b = [n]) ∧
  ∀ a, a ∈ L → isDirectory (e_dirent a) = true → dest ++ e_path a ∈ V →
    ∀ n nd, f !! (dest ++ e_path a ++ [n]) = Some nd →
      ∃ b, b ∈ L ∧ e_path b = e_path a ++ [n].

(** The number of levels of the tree below [rt]. *)
Definition height (f : fs) (rt : path) : nat :=
  max_list ((λ k, length k - length rt)%nat <$>
            filter (λ k, rt `prefix_of` k) (map_to_list f).*1).

(** A destination with a recorded directory [sub], which holds a recorded
    file and a stale one, and a stale directory [old]. *)
Definition kept_fs : fs :=
  list_to_map
    [ (["dst"], NDir); (["dst"; "keep"], NFile "k");
      (["dst"; "sub"], NDir); (["dst"; "sub"; "a"], NFile "a");
      (["dst"; "sub"; "b"], NFile "b");
      (["dst"; "old"], NDir); (["dst"; "old"; "x"], NFile "x") ].

Definition kept_set : list path :=
  [["dst"; "keep"]; ["dst"; "sub"]; ["dst"; "sub"; "a"]].

(** A destination with one recorded file and a stale directory. *)
Definition stale_fs : fs :=
  list_to_map
    [ (["dst"], NDir); (["dst"; "keep"], NFile "k");
      (["dst"; "old"], NDir); (["dst"; "old"; "x"], NFile "x") ].

(** The calls of the reconciliation walk over [dst], and those of a
    post-order walk with the same visitor. *)
Definition reconcile_calls : list path :=
  e_path <$> trace
    (__walk 2 [] (observed_prune ["dst"])
       (World stale_fs ([], Some [["dst"; "keep"]]))).2.

(** The same walk, with [WALK_FILEFIRST]. *)
Definition postorder_calls : list path :=
  e_path <$> trace
    (__walk 2 []
       {| root := ["dst"]; flags := ANumber WALK_FILEFIRST;
          walker := AFunction (logged (prune_walker ["dst"])) |}
       (World stale_fs ([], Some [["dst"; "keep"]]))).2.

(** [f'] has everything [f] has, unchanged, and what is new satisfies [P]. *)
Definition extends (P : path → Prop) (f f' : fs) : Prop :=
  f ⊆ f' ∧ ∀ k, f !! k = None → is_Some (f' !! k) → P k.

(** [w'] comes after [w]: the filesystem is well formed and has only grown,
    by entries that satisfy [P]; and when paths are being recorded, the
    record has only grown and holds every new entry. *)
Definition advance (P : path → Prop) (w w' : world existent) : Prop :=
  wf (w_fs w') ∧ extends P (w_fs w) (w_fs w') ∧
  ∀ V, w_user w = Some V →
    ∃ V', w_user w' = Some V' ∧ (∀ q, q ∈ V → q ∈ V') ∧
          ∀ k, w_fs w !! k = None → is_Some (w_fs w' !! k) → k ∈ V'.

(** The options of the primary walk of [__copy]. *)
Definition copy_options (src dest : path) (recursive : bool) : WalkOptions existent :=
  {| root := src; flags := AUndefined;
     walker := AFunction (copy_walker src dest recursive) |}.

(** A destination that already holds [f1.txt]. *)
Definition crowded_fs : fs :=
  <[ ["copy"; "f1.txt"] := NFile "old" ]> (<[ ["copy"] := NDir ]> example_tree).

(** Every entry on the way from [base] down to [k] is recorded in [V]. *)
Definition keep (V : list path) (base k : path) : Prop :=
  ∀ q, inside base q → q `prefix_of` k → q ∈ V.

(** A mirror visitor: it records the destination path of the entry, and
    keeps the filesystem well formed. *)
Definition recording (dest : path) (v : visitor existent) : Prop :=
  ∀ q d w r w', v q d w = (r, w') →
    w_user w' = (λ l, l ++ [dest ++ q]) <$> w_user w ∧
    (wf (w_fs w) → wf (w_fs w')).

(** Every recorded path is inside [dest], with all the entries on the way
    down to it recorded as well. *)
Definition closed (dest : path) (V : list path) : Prop :=
  ∀ q, q ∈ V → inside dest q ∧ ∀ q', inside dest q' → q' `prefix_of` q → q' ∈ V.

(** The options of the primary walk of [__symlink]. *)
Definition symlink_options (src dest : path) (recursive : bool) : WalkOptions existent :=
  {| root := src; flags := AUndefined;
     walker := AFunction (symlink_walker src dest recursive) |}.

(** The primary pass of [__copy] and of [__symlink]: all that comes before
    the reconciliation. *)
Definition copy_primary (fuel : nat) (src dest : path) (flags : option Z) : M existent unit :=
  let recursive := negb (truthy (Z.land (flag_bits flags) COPY_EXCL)) in
  lift (mkdir dest recursive) ;;;
  __walk fuel [] (copy_options src dest recursive).

(** The same for [__symlink]. *)
Definition symlink_primary (fuel : nat) (src dest : path) (flags : option Z) : M existent unit :=
  let recursive := negb (truthy (Z.land (flag_bits flags) SYMLINK_EXCL)) in
  lift (mkdir dest recursive) ;;;
  __walk fuel [] (symlink_options src dest recursive).

(** A destination that holds a stale file and a stale directory. *)
Definition littered_fs : fs :=
  <[ ["copy"; "old"; "x"] := NFile "x" ]>
    (<[ ["copy"; "old"] := NDir ]>
       (<[ ["copy"; "junk"] := NFile "j" ]> (<[ ["copy"] := NDir ]> example_tree))).

(** Mirroring the tree of the test-suite into it, with pruning. *)
Definition mirrored : res unit * world unit :=
  __copy 3 ["walk"] ["copy"] (Some COPY_RMNONEXISTENT) (World littered_fs tt).

(** * Properties *)

(** ** Paths and listings *)

Lemma inside_snoc (p : path) (n : string) : inside p (p ++ [n]).
Proof.
  split; [by apply prefix_app_r|].
  intros H. apply (f_equal length) in H. rewrite length_app in H. simpl in H. lia.
Qed.

Lemma inside_app (p q : path) : q ≠ [] → inside p (p ++ q).
Proof.
  intros Hq. split; [by apply prefix_app_r|].
  intros H. rewrite <- (app_nil_r p) in H at 2. by apply app_inv_head in H.
Qed.

Lemma inside_inv (p k : path) : inside p k → ∃ n r, k = p ++ n :: r.
Proof.
  intros [[r ->] Hne]. destruct r as [|n r].
  - by rewrite app_nil_r in Hne.
  - eauto.
Qed.

Lemma inside_trans (a b c : path) : inside a b → b `prefix_of` c → inside a c.
Proof.
  intros [Hab Hne] Hbc. split; [by etrans|].
  intros ->. apply Hne. by apply (anti_symm prefix).
Qed.

Lemma inside_irrefl (p : path) : ¬ inside p p.
Proof. by intros [_ H]. Qed.

(** Entries of two different children of one directory are unrelated. *)
Lemma prefix_sibling (p : path) (n m : string) (a b : path) :
  p ++ [n] `prefix_of` a → p ++ [m] `prefix_of` b → a `prefix_of` b → n = m.
Proof.
  intros [ra ->] [rb ->] [r Hr].
  rewrite <- !app_assoc in Hr. apply app_inv_head in Hr.
  simpl in Hr. by injection Hr.
Qed.

Lemma dirname_snoc (p : path) (n : string) : dirname (p ++ [n]) = p.
Proof. apply removelast_last. Qed.

Lemma path_snoc_or_nil (p : path) : p = [] ∨ ∃ q n, p = q ++ [n].
Proof.
  destruct (decide (p = [])) as [|Hne]; [by left|right].
  destruct (exists_last Hne) as (q & n & ->). eauto.
Qed.

Lemma child_of_Some (p k : path) (n : string) :
  child_of p k = Some n ↔ k = p ++ [n].
Proof.
  unfold child_of. split.
  - destruct (drop (length p) k) as [|m [|? ?]] eqn:Hd; try done.
    case_decide as Ht; [|done]. intros [= ->].
    by rewrite <- (take_drop (length p) k), Ht, Hd.
  - intros ->. rewrite drop_app_length, take_app_length.
    by rewrite decide_True.
Qed.

Lemma elem_of_listing (f : fs) (p : path) (d : dirent) :
  d ∈ listing f p ↔ ∃ nd, f !! (p ++ [name d]) = Some nd ∧ d_kind d = kind_of nd.
Proof.
  unfold listing. rewrite list_elem_of_omap. split.
  - intros ([k nd] & Hin & Hd). apply elem_of_map_to_list in Hin.
    destruct (child_of p k) as [n|] eqn:Hc; simplify_eq/=.
    apply child_of_Some in Hc as ->. eauto.
  - intros (nd & Hl & Hk). exists (p ++ [name d], nd). split.
    + by apply elem_of_map_to_list.
    + rewrite (proj2 (child_of_Some _ _ _) eq_refl). simpl.
      destruct d; simpl in *; by subst.
Qed.

Lemma NoDup_omap_inj {A B} (h : A → option B) (l : list A) :
  (∀ x y z, h x = Some z → h y = Some z → x = y) →
  NoDup l → NoDup (omap h l).
Proof.
  intros Hinj. induction 1 as [|x l Hx Hl IH]; simpl; [constructor|].
  destruct (h x) as [z|] eqn:Hz; [|done].
  constructor; [|done].
  rewrite list_elem_of_omap. intros (y & Hy & Hhy).
  by rewrite (Hinj _ _ _ Hz Hhy) in Hx.
Qed.

Lemma NoDup_listing (f : fs) (p : path) : NoDup (name <$> listing f p).
Proof.
  assert (name <$> listing f p = omap (child_of p) (map_to_list f).*1) as ->.
  { unfold listing. induction (map_to_list f) as [|[k nd] l IH]; [done|].
    csimpl. destruct (child_of p k); csimpl; by rewrite IH. }
  apply NoDup_omap_inj; [|apply NoDup_fst_map_to_list].
  intros x y z Hx Hy. apply child_of_Some in Hx, Hy. congruence.
Qed.

(** ** Well-formed filesystems *)

Lemma wfb_wf (f : fs) : wfb f = true ↔ wf f.
Proof.
  unfold wfb, wf. rewrite <- Is_true_true, forallb_True, Forall_forall. split.
  - intros H p nd Hp. apply elem_of_map_to_list in Hp.
    apply H in Hp. simpl in Hp. by apply bool_decide_spec in Hp.
  - intros H [p nd] Hin%elem_of_map_to_list. simpl.
    apply bool_decide_spec. eauto.
Qed.

Lemma fs_get_snoc (f : fs) (p : path) (n : string) : fs_get f (p ++ [n]) = f !! (p ++ [n]).
Proof. by destruct p. Qed.

Lemma fs_get_Some_lookup (f : fs) (p : path) (nd : node) :
  f !! p = Some nd → wf f → fs_get f p = Some nd.
Proof. intros Hp Hwf. destruct (Hwf _ _ Hp) as [Hne _]. by destruct p. Qed.

Lemma fs_get_ne (f : fs) (p : path) : p ≠ [] → fs_get f p = f !! p.
Proof. by destruct p. Qed.

(** Below an entry that is not a directory there is nothing, and every
    entry on the way to an existing one is a directory. *)
Lemma wf_ancestor (f : fs) (p r : path) (nd : node) :
  wf f → r ≠ [] → f !! (p ++ r) = Some nd → fs_get f p = Some NDir.
Proof.
  intros Hwf. revert nd. induction r as [|n r IH] using rev_ind; [done|].
  intros nd _ Hl. rewrite app_assoc in Hl.
  destruct (Hwf _ _ Hl) as [_ Hd]. rewrite dirname_snoc in Hd.
  destruct r as [|m r'].
  - by rewrite app_nil_r in Hd.
  - rewrite fs_get_ne in Hd by (by destruct p). by eapply IH.
Qed.

Lemma wf_inside (f : fs) (p k : path) (nd : node) :
  wf f → inside p k → f !! k = Some nd → fs_get f p = Some NDir.
Proof.
  intros Hwf (n & r & ->)%inside_inv Hl.
  by apply (wf_ancestor f p (n :: r) nd).
Qed.

Lemma wf_prefix (f : fs) (p k : path) (nd : node) :
  wf f → p `prefix_of` k → f !! k = Some nd → is_Some (fs_get f p).
Proof.
  intros Hwf Hp Hl. destruct (decide (k = p)) as [->|Hne].
  - exists nd. by apply fs_get_Some_lookup.
  - exists NDir. by eapply wf_inside.
Qed.

Lemma wf_empty : wf ∅.
Proof. intros p nd. by rewrite lookup_empty. Qed.

(** ** Reasoning about promises *)

Lemma bind_inv {U A B} (c : M U A) (k : A → M U B) (w w' : world U) (r : res B) :
  bind c k w = (r, w') →
  (∃ a w1, c w = (Ok a, w1) ∧ k a w1 = (r, w')) ∨
  (∃ e, c w = (Fail e, w') ∧ r = Fail e) ∨
  (c w = (Pending, w') ∧ r = Pending).
Proof.
  unfold bind. destruct (c w) as [[a|e|] w1]; intros H.
  - left. eauto.
  - right. left. exists e. by simplify_eq.
  - right. right. by simplify_eq.
Qed.

Lemma bind_Ok {U A B} (c : M U A) (k : A → M U B) (w w1 : world U) (a : A) :
  c w = (Ok a, w1) → bind c k w = k a w1.
Proof. unfold bind. by intros ->. Qed.

Lemma lift_inv {U A} (op : fsop A) (w w' : world U) (r : res A) :
  lift op w = (r, w') →
  op (w_fs w) = (r, w_fs w') ∧ w_user w' = w_user w.
Proof. unfold lift. destruct (op (w_fs w)) as [r0 f']. by intros [= <- <-]. Qed.

Lemma for_of_ext {U A} (l : list A) (b1 b2 : A → M U unit) (w : world U) :
  (∀ x w, x ∈ l → b1 x w = b2 x w) → for_of l b1 w = for_of l b2 w.
Proof.
  revert w. induction l as [|x l IH]; intros w H; [done|].
  simpl. unfold bind. rewrite H by left.
  destruct (b2 x w) as [[[]|e|] w1]; try done.
  apply IH. intros y w2 Hy. apply H. by right.
Qed.

(** The loop rule: an invariant of the entries processed so far holds
    wherever the loop stops, and the loop stops early only by failing. *)
Lemma for_of_inv {U A} (I : list A → world U → Prop)
    (l : list A) (body : A → M U unit) (w0 w' : world U) (r : res unit) :
  I [] w0 →
  (∀ done x rest w r w',
     l = done ++ x :: rest → I done w → body x w = (r, w') → I (done ++ [x]) w') →
  for_of l body w0 = (r, w') →
  ∃ done rest, l = done ++ rest ∧ I done w' ∧ (r = Ok tt → rest = []).
Proof.
  revert I w0. induction l as [|x l IH]; intros I w0 H0 Hstep Hrun.
  - simpl in Hrun. injection Hrun as <- <-. exists [], []. eauto.
  - simpl in Hrun.
    apply bind_inv in Hrun as [([] & w1 & Hx & Hrest)|[(e & Hx & ->)|[Hx ->]]].
    + destruct (IH (λ done, I (x :: done)) w1) as (done & rest & -> & HI & Hr).
      * apply (Hstep [] x l w0 (Ok tt) w1); eauto.
      * intros done y rest w r0 w2 -> HI Hy.
        apply (Hstep (x :: done) y rest w r0 w2); eauto.
      * done.
      * exists (x :: done), rest. eauto.
    + exists [x], l. split_and!; [done| |done].
      apply (Hstep [] x l w0 (Fail e) w'); eauto.
    + exists [x], l. split_and!; [done| |done].
      apply (Hstep [] x l w0 Pending w'); eauto.
Qed.

(** ** The log of visitor calls *)

Lemma before_app (L L' : list entry) (a b : entry) :
  before (L ++ L') a b → before L a b ∨ before L' a b ∨ (a ∈ L ∧ b ∈ L').
Proof.
  intros (L1 & L2 & L3 & H).
  apply app_eq_inv in H as [(k & -> & H)|(k & -> & ->)].
  - destruct k as [|c k]; simpl in H.
    + right. left. exists [], L2, L3. by rewrite <- H.
    + injection H as -> H.
      apply app_eq_inv in H as [(k2 & -> & ->)|(k2 & -> & H)].
      * right. right. set_solver.
      * destruct k2 as [|c' k2]; simpl in H.
        -- right. right. rewrite <- H. set_solver.
        -- injection H as -> _. left. by exists L1, L2, k2.
  - right. left. by exists k, L2, L3.
Qed.

Lemma before_elem (L : list entry) (a b : entry) : before L a b → a ∈ L ∧ b ∈ L.
Proof. intros (L1 & L2 & L3 & ->). set_solver. Qed.

Lemma before_cons (a : entry) (L : list entry) (x y : entry) :
  before (a :: L) x y → (x = a ∧ y ∈ L) ∨ before L x y.
Proof.
  intros (L1 & L2 & L3 & H). destruct L1 as [|c L1]; simpl in H.
  - injection H as -> ->. left. set_solver.
  - injection H as -> ->. right. by exists L1, L2, L3.
Qed.

Lemma logged_inv {U} (v : visitor U) p d (w w' : world (list entry * U)) r :
  logged v p d w = (r, w') → trace w' = trace w ++ [(p, d, r)].
Proof.
  unfold logged, trace.
  destruct (v p d _) as [r0 w1]. by intros [= <- <-].
Qed.

Lemma inside_asym (a b : path) : inside a b → b `prefix_of` a → False.
Proof. intros [Hab Hne] Hba. apply Hne. by apply (anti_symm prefix). Qed.

Lemma not_before_single (e a b : entry) : ¬ before [e] a b.
Proof.
  intros (L1 & L2 & L3 & H). apply (f_equal length) in H.
  rewrite length_app in H. simpl in H. rewrite length_app in H. simpl in H. lia.
Qed.

Lemma readdir_inv (p : path) (f f' : fs) (r : res (list dirent)) :
  readdir p f = (r, f') →
  f' = f ∧ ∀ files, r = Ok files → files = listing f p ∧ fs_get f p = Some NDir.
Proof.
  unfold readdir. destruct (fs_get f p) as [[]|]; intros [= <- <-]; split; try done.
  by intros files [= <-].
Qed.

Section walk_trace.
Context {U : Type} (v : visitor U) (rt : path) (fl : jsarg (list entry * U)).

Let opts : WalkOptions (list entry * U) :=
  {| root := rt; flags := fl; walker := AFunction (logged v) |}.

Lemma among_below base done (L : list entry) : among base done L → below base L.
Proof.
  intros H e He. destruct (H e He) as (x & _ & Hx).
  eapply inside_trans; [apply inside_snoc|done].
Qed.

Lemma among_nil base done : among base done [].
Proof. intros e He. set_solver. Qed.

Lemma among_app base done x (L L' : list entry) :
  among base done L →
  (∀ e, e ∈ L' → base ++ [name x] `prefix_of` e_path e) →
  among base (done ++ [x]) (L ++ L').
Proof.
  intros HL HL' e [He|He]%elem_of_app.
  - destruct (HL e He) as (y & Hy & Hp). exists y. set_solver.
  - exists x. set_solver.
Qed.

(** Entries logged for different children of [base] are unrelated. *)
Lemma among_apart base done x (L L' : list entry) a b :
  name x ∉ name <$> done →
  among base done L →
  (∀ e, e ∈ L' → base ++ [name x] `prefix_of` e_path e) →
  (a ∈ L ∧ b ∈ L') ∨ (a ∈ L' ∧ b ∈ L) →
  ¬ e_path a `prefix_of` e_path b.
Proof.
  intros Hx HL HL' [[Ha Hb]|[Ha Hb]] Hpre.
  - destruct (HL a Ha) as (y & Hy & Hp).
    apply Hx. rewrite <- (prefix_sibling _ _ _ _ _ Hp (HL' b Hb) Hpre).
    by apply list_elem_of_fmap_2.
  - destruct (HL b Hb) as (y & Hy & Hp).
    apply Hx. rewrite (prefix_sibling _ _ _ _ _ (HL' a Ha) Hp Hpre).
    by apply list_elem_of_fmap_2.
Qed.

Lemma NoDup_listing_split f p done x rest :
  listing f p = done ++ x :: rest → name x ∉ name <$> done.
Proof.
  intros H. pose proof (NoDup_listing f p) as Hnd.
  rewrite H, fmap_app, fmap_cons in Hnd.
  apply NoDup_app in Hnd as (_ & Hnd & _).
  intros Hin. apply (Hnd _ Hin). by left.
Qed.

(** *** Pre-order *)

Lemma pre_ok_single e : pre_ok [e].
Proof.
  split.
  - intros a b ->%list_elem_of_singleton ->%list_elem_of_singleton _.
    apply inside_irrefl.
  - intros a b H. by apply not_before_single in H.
Qed.

Lemma pre_ok_nil : pre_ok [].
Proof.
  split.
  - intros a b Ha. set_solver.
  - intros a b (L1 & L2 & L3 & H). by destruct L1.
Qed.

(** A directory that did not return [false], followed by its contents. *)
Lemma pre_ok_cons e L :
  e_ret e ≠ Ok (VBool false) → below (e_path e) L → pre_ok L → pre_ok (e :: L).
Proof.
  intros Hret Hbelow [Hpr Hpo]. split.
  - intros a b [->|Ha]%elem_of_cons [->|Hb]%elem_of_cons Hfalse; try done.
    + intros Hin. eapply inside_asym; [apply (Hbelow a Ha)|apply Hin].
    + by apply Hpr.
  - intros a b [[-> Hb]|H]%before_cons.
    + intros Hin. eapply inside_asym; [apply (Hbelow b Hb)|apply Hin].
    + by apply Hpo.
Qed.

Lemma pre_ok_app base done x (L L' : list entry) :
  name x ∉ name <$> done →
  among base done L →
  (∀ e, e ∈ L' → base ++ [name x] `prefix_of` e_path e) →
  pre_ok L → pre_ok L' → pre_ok (L ++ L').
Proof.
  intros Hx HL HL' [Hpr Hpo] [Hpr' Hpo']. split.
  - intros a b [Ha|Ha]%elem_of_app [Hb|Hb]%elem_of_app Hfalse; eauto.
    + intros [Hin _]. by apply (among_apart base done x L L' a b); auto.
    + intros [Hin _]. by apply (among_apart base done x L L' a b); auto.
  - intros a b [H|[H|[Ha Hb]]]%before_app; eauto.
    intros [Hin _]. by apply (among_apart base done x L L' b a); auto.
Qed.

Lemma walk_pre_trace fuel path w r w' :
  truthy (Z.land (arg_bits fl) WALK_FILEFIRST) = false →
  __walk fuel path opts w = (r, w') →
  ∃ L, trace w' = trace w ++ L ∧ below path L ∧ pre_ok L.
Proof.
  intros Hfl. revert path w r w'.
  induction fuel as [|fuel IH]; intros path w r w' Hrun.
  { injection Hrun as <- <-. exists []. rewrite app_nil_r.
    split_and!; [done|intros e; set_solver|apply pre_ok_nil]. }
  simpl in Hrun. rewrite Hfl in Hrun.
  apply bind_inv in Hrun as [(files & w1 & Hrd & Hloop)|[(e & Hrd & ->)|[Hrd ->]]];
    apply lift_inv in Hrd as [Hrd Hu];
    apply readdir_inv in Hrd as [Hfs Hfiles];
    [|exists []; rewrite app_nil_r; unfold trace; rewrite Hu;
      split_and!; [done|intros ?; set_solver|apply pre_ok_nil]..].
  destruct (Hfiles files eq_refl) as [-> _].
  apply (for_of_inv (λ done w2,
    ∃ L, trace w2 = trace w ++ L ∧ among path done L ∧ pre_ok L)) in Hloop.
  - destruct Hloop as (done & rest & _ & (L & HL & Ham & Hok) & _).
    exists L. split_and!; [done|by eapply among_below|done].
  - exists []. rewrite app_nil_r. unfold trace. rewrite Hu.
    split_and!; [done|apply among_nil|apply pre_ok_nil].
  - intros done x rest w2 r2 w3 Hsplit (L & HL & Ham & Hok) Hbody.
    apply NoDup_listing_split in Hsplit.
    assert (∃ L', trace w3 = trace w2 ++ L' ∧
              (∀ e, e ∈ L' → path ++ [name x] `prefix_of` e_path e) ∧
              pre_ok L') as (L' & HL' & Hin' & Hok').
    { destruct (isDirectory x).
      - apply bind_inv in Hbody as [(v1 & w4 & Hcall & Hrest)|[(e & Hcall & ->)|[Hcall ->]]];
          apply logged_inv in Hcall.
        + destruct (strict_ne_false v1) eqn:Hv1.
          * apply IH in Hrest as (L3 & HL3 & Hb3 & Hok3).
            exists ((join path [name x], x, Ok v1) :: L3). split_and!.
            -- rewrite HL3, Hcall, <- app_assoc. done.
            -- intros e [->|He]%elem_of_cons; [done|]. by apply Hb3.
            -- apply pre_ok_cons; [|done..]. simpl. intros [= ->]. done.
          * injection Hrest as <- <-. eexists. split_and!; [done| |apply pre_ok_single].
            by intros e0 ->%list_elem_of_singleton.
        + eexists. split_and!; [done| |apply pre_ok_single].
          by intros e0 ->%list_elem_of_singleton.
        + eexists. split_and!; [done| |apply pre_ok_single].
          by intros e0 ->%list_elem_of_singleton.
      - apply bind_inv in Hbody as [(v1 & w4 & Hcall & Hrest)|[(e & Hcall & ->)|[Hcall ->]]];
          apply logged_inv in Hcall; [injection Hrest as <- <-|..];
          (eexists; split_and!; [done| |apply pre_ok_single];
           by intros e0 ->%list_elem_of_singleton). }
    exists (L ++ L'). split_and!.
    + by rewrite HL', HL, <- app_assoc.
    + by apply among_app.
    + by eapply pre_ok_app.
Qed.

(** *** Post-order *)





End walk_trace.

Lemma for_of_Ok {U A} (I : list A → world U → Prop)
    (l : list A) (body : A → M U unit) (w0 w' : world U) :
  I [] w0 →
  (∀ done x rest w w',
     l = done ++ x :: rest → I done w → body x w = (Ok tt, w') → I (done ++ [x]) w') →
  for_of l body w0 = (Ok tt, w') →
  I l w'.
Proof.
  revert I w0. induction l as [|x l IH]; intros I w0 H0 Hstep Hrun.
  - simpl in Hrun. by injection Hrun as <-.
  - simpl in Hrun.
    apply bind_inv in Hrun as [([] & w1 & Hx & Hrest)|[(e & _ & [=])|[_ [=]]]].
    apply (IH (λ done, I (x :: done)) w1); [by apply (Hstep [] x l w0 w1)| |done].
    intros done y rest w w2 -> HI Hy.
    by apply (Hstep (x :: done) y rest w w2).
Qed.

Lemma bind_ext {U A B} (c : M U A) (k1 k2 : A → M U B) (w : world U) :
  (∀ a w1, k1 a w1 = k2 a w1) → bind c k1 w = bind c k2 w.
Proof. intros H. unfold bind. by destruct (c w) as [[a|e|] w1]. Qed.

Lemma bind_ext_l {U A B} (c1 c2 : M U A) (k : A → M U B) (w : world U) :
  c1 w = c2 w → bind c1 k w = bind c2 k w.
Proof. intros H. unfold bind. by rewrite H. Qed.

(** The walker looks at its flags only through the [WALK_FILEFIRST] bit. *)
Lemma walk_flags_ext {U} (fuel : nat) (p rt : path) (fl1 fl2 wk : jsarg U) (w : world U) :
  truthy (Z.land (arg_bits fl1) WALK_FILEFIRST) =
  truthy (Z.land (arg_bits fl2) WALK_FILEFIRST) →
  __walk fuel p {| root := rt; flags := fl1; walker := wk |} w =
  __walk fuel p {| root := rt; flags := fl2; walker := wk |} w.
Proof.
  intros Hfl. revert p w. induction fuel as [|fuel IH]; intros p w; [done|].
  simpl. rewrite Hfl. apply bind_ext. intros files w1.
  apply for_of_ext. intros x w2 _.
  destruct (isDirectory x); [|done].
  destruct (truthy (Z.land (arg_bits fl2) WALK_FILEFIRST)).
  - by apply bind_ext_l.
  - apply bind_ext. intros v1 w3. by destruct (strict_ne_false v1).
Qed.


(** ** Fuel *)

Lemma bind_settled {U A B} (c : M U A) (k1 k2 : A → M U B) (w w' : world U) (r : res B) :
  (∀ a w1, k1 a w1 = (r, w') → k2 a w1 = (r, w')) →
  bind c k1 w = (r, w') → bind c k2 w = (r, w').
Proof.
  intros Hk. unfold bind. destruct (c w) as [[a|e|] w1]; [apply Hk|done..].
Qed.

Lemma bind_settled_l {U A B} (c1 c2 : M U A) (k : A → M U B) (w w' : world U) (r : res B) :
  r ≠ Pending →
  (∀ r1 w1, r1 ≠ Pending → c1 w = (r1, w1) → c2 w = (r1, w1)) →
  bind c1 k w = (r, w') → bind c2 k w = (r, w').
Proof.
  intros Hr Hc. unfold bind. destruct (c1 w) as [[a|e|] w1] eqn:H1.
  - by rewrite (Hc (Ok a) w1).
  - by rewrite (Hc (Fail e) w1).
  - by intros [= <- <-].
Qed.

Lemma for_of_settled {U A} (l : list A) (b1 b2 : A → M U unit) (w w' : world U) (r : res unit) :
  r ≠ Pending →
  (∀ x w r w', r ≠ Pending → b1 x w = (r, w') → b2 x w = (r, w')) →
  for_of l b1 w = (r, w') → for_of l b2 w = (r, w').
Proof.
  intros Hr Hb. revert w. induction l as [|x l IH]; intros w; [done|].
  simpl. intros Hrun. apply (bind_settled_l (b1 x)); [done|by apply Hb|].
  revert Hrun. apply bind_settled. intros _. apply IH.
Qed.

Lemma __walk_unfold {U : Type} (fuel : nat) (path : path) (options : WalkOptions U) :
  __walk (S fuel) path options =
  (files <- lift (readdir (join (root options) path)) ;;
   for_of files (λ file,
     let filePath := join path [name file] in
     if isDirectory file then
       if truthy (Z.land (arg_bits (flags options)) WALK_FILEFIRST) then
         __walk fuel filePath options ;;;
         call (walker options) filePath file ;;;
         ret tt
       else
         needNested <- call (walker options) filePath file ;;
         if strict_ne_false needNested then __walk fuel filePath options
         else ret tt
     else
       call (walker options) filePath file ;;;
       ret tt)).
Proof. reflexivity. Qed.

(** Fuel only bounds the depth: a walk that settled settles the same way
    with more fuel. *)
Lemma walk_fuel_mono {U : Type} (fuel : nat) (p : path) (opts : WalkOptions U)
    (w w' : world U) (r : res unit) :
  r ≠ Pending →
  __walk fuel p opts w = (r, w') → __walk (S fuel) p opts w = (r, w').
Proof.
  revert p w r w'. induction fuel as [|fuel IH]; intros p w r w' Hr Hrun.
  { by injection Hrun as <- <-. }
  rewrite (__walk_unfold (S fuel)). rewrite (__walk_unfold fuel) in Hrun.
  revert Hrun. apply bind_settled. intros files w1.
  apply for_of_settled; [done|]. intros x w2 r2 w3 Hr2. cbv beta zeta.
  destruct (isDirectory x); [|done].
  destruct (truthy _).
  - apply bind_settled_l; [done|]. intros r1 w4 Hr1 Hsub.
    exact (IH _ _ _ _ Hr1 Hsub).
  - apply bind_settled. intros v1 w4. destruct (strict_ne_false v1); [|done].
    intros Hsub. exact (IH _ _ _ _ Hr2 Hsub).
Qed.

(** ** Descent in pre-order *)


Section walk_descent.
Context {U : Type} (v : visitor U) (rt : path) (fl : jsarg (list entry * U)).
Hypothesis v_read_only : read_only v.
Hypothesis pre : truthy (Z.land (arg_bits fl) WALK_FILEFIRST) = false.

Let opts : WalkOptions (list entry * U) :=
  {| root := rt; flags := fl; walker := AFunction (logged v) |}.



End walk_descent.

(** ** The public [walk] *)



Lemma skip_p1_read_only : read_only skip_p1.
Proof.
  intros p d w r w'. unfold skip_p1.
  destruct (_ && _); by intros [= <- <-].
Qed.





(** C9: a function in the flags position is the visitor, and the walk then
    runs without flags: [walk(root, visitor)] is [walk(root, undefined,
    visitor)] and [walk(root, 0, visitor)], a pre-order walk of [root]. *)
Theorem walk_two_arguments {U} (fuel : nat) (rt : path) (v : visitor U) (w : world U) :
  walk fuel rt (AFunction v) AUndefined w = walk fuel rt AUndefined (AFunction v) w ∧
  walk fuel rt (AFunction v) AUndefined w = walk fuel rt (ANumber 0) (AFunction v) w ∧
  walk fuel rt (AFunction v) AUndefined w =
    __walk fuel [] {| root := rt; flags := AUndefined; walker := AFunction v |} w.
Proof.
  split_and!; try done.
  unfold walk. simpl. by apply walk_flags_ext.
Qed.

(** ** The filesystem primitives keep the filesystem well formed *)

Lemma stat_inv (p : path) (f f' : fs) (r : res node) : stat p f = (r, f') → f' = f.
Proof.
  unfold stat. destruct (follow _ _ _) as [[q [nd|]]|e|]; by intros [= <- <-].
Qed.

Lemma lstat_inv (p : path) (f f' : fs) (r : res node) :
  lstat p f = (r, f') → f' = f ∧ ∀ nd, r = Ok nd → fs_get f p = Some nd.
Proof.
  unfold lstat. destruct (fs_get f p) as [nd|]; intros [= <- <-]; split; try done.
  by intros ? [= <-].
Qed.

Lemma readlink_inv (p : path) (f f' : fs) (r : res path) :
  readlink p f = (r, f') → f' = f.
Proof.
  unfold readlink. destruct (fs_get f p) as [[]|]; by intros [= <- <-].
Qed.

Lemma wf_no_child (f : fs) (p k : path) :
  wf f → fs_get f p ≠ Some NDir → inside p k → f !! k = None.
Proof.
  intros Hwf Hp Hin. destruct (f !! k) as [nd|] eqn:Hk; [|done].
  destruct Hp. by eapply wf_inside.
Qed.

Lemma dirname_ne (p : path) : p ≠ [] → dirname p ≠ p.
Proof.
  intros Hne. destruct (path_snoc_or_nil p) as [?|(q & n & ->)]; [done|].
  rewrite dirname_snoc. intros H. apply (f_equal length) in H.
  rewrite length_app in H. simpl in H. lia.
Qed.

Lemma fs_get_insert_ne (f : fs) (p q : path) (nd : node) :
  p ≠ q → fs_get (<[p := nd]> f) q = fs_get f q.
Proof. intros Hne. destruct q; [done|]. simpl. by rewrite lookup_insert_ne. Qed.

Lemma fs_get_insert_eq (f : fs) (p : path) (nd : node) :
  p ≠ [] → fs_get (<[p := nd]> f) p = Some nd.
Proof. intros Hne. rewrite fs_get_ne by done. apply lookup_insert_eq. Qed.

Lemma wf_insert (f : fs) (p : path) (nd : node) :
  wf f → p ≠ [] → fs_get f (dirname p) = Some NDir →
  (nd = NDir ∨ fs_get f p ≠ Some NDir) →
  wf (<[p := nd]> f).
Proof.
  intros Hwf Hne Hdir Hnd k x Hk.
  destruct (decide (k = p)) as [->|Hkp].
  - split; [done|]. rewrite fs_get_insert_ne; [done|].
    intros H. by apply (dirname_ne p).
  - rewrite lookup_insert_ne in Hk by done.
    destruct (Hwf _ _ Hk) as [Hk0 Hkd]. split; [done|].
    destruct (decide (p = dirname k)) as [->|Hpk].
    + rewrite fs_get_insert_eq by done. by destruct Hnd as [->|Hnd].
    + by rewrite fs_get_insert_ne.
Qed.

Lemma create_inv (p : path) (nd : node) (f f' : fs) (r : res unit) :
  create p nd f = (r, f') →
  (r = Ok tt ∧ f' = <[p := nd]> f ∧ fs_get f (dirname p) = Some NDir) ∨
  (r ≠ Ok tt ∧ f' = f).
Proof.
  unfold create. destruct (fs_get f (dirname p)) as [[]|]; intros [= <- <-]; auto.
Qed.

Lemma create_wf (p : path) (nd : node) (f f' : fs) (r : res unit) :
  wf f → fs_get f p = None → create p nd f = (r, f') → wf f'.
Proof.
  intros Hwf Hp [(-> & -> & Hd)|[_ ->]]%create_inv; [|done].
  apply wf_insert; try done.
  - by intros ->.
  - right. by rewrite Hp.
Qed.

Lemma remove_tree_lookup (p k : path) (f : fs) :
  (remove_tree p f) !! k = if decide (p `prefix_of` k) then None else f !! k.
Proof.
  unfold remove_tree. rewrite map_lookup_filter. simpl.
  destruct (f !! k) as [nd|] eqn:Hk; simpl.
  - case_decide as Hp.
    + by rewrite option_guard_False by (by intros ?).
    + by rewrite option_guard_True.
  - by case_decide.
Qed.

Lemma remove_tree_wf (p : path) (f : fs) : wf f → wf (remove_tree p f).
Proof.
  intros Hwf k nd. rewrite remove_tree_lookup. case_decide as Hp; [done|].
  intros Hk. destruct (Hwf _ _ Hk) as [Hne Hd]. split; [done|].
  destruct (path_snoc_or_nil (dirname k)) as [->|(q & m & Hq)]; [done|].
  rewrite Hq in *. rewrite fs_get_snoc in *.
  rewrite remove_tree_lookup. rewrite decide_False; [done|].
  intros Hpre. apply Hp. etrans; [apply Hpre|].
  rewrite <- Hq. destruct (path_snoc_or_nil k) as [->|(k' & m' & ->)]; [done|].
  rewrite dirname_snoc. by apply prefix_app_r.
Qed.

Lemma mkdirp_wf (made todo : path) (f f' : fs) (r : res unit) :
  wf f → fs_get f made = Some NDir → mkdirp made todo f = (r, f') → wf f'.
Proof.
  revert made f. induction todo as [|n rest IH]; intros made f Hwf Hdone Hrun.
  - by injection Hrun as <- <-.
  - simpl in Hrun. rewrite fs_get_snoc in Hrun.
    destruct (f !! (made ++ [n])) as [[d|t|]|] eqn:Hp.
    + by destruct rest; injection Hrun as <- <-.
    + destruct rest; [destruct (stat _ f) as [[[]|?|] ?]|]; by injection Hrun as <- <-.
    + eapply (IH (made ++ [n])); [done| |done]. by rewrite fs_get_snoc.
    + eapply (IH (made ++ [n])); [| |done].
      * apply wf_insert; [done|by destruct made|by rewrite dirname_snoc|by left].
      * by rewrite fs_get_snoc, lookup_insert_eq.
Qed.

Lemma mkdir_wf (p : path) (recursive : bool) (f f' : fs) (r : res unit) :
  wf f → mkdir p recursive f = (r, f') → wf f'.
Proof.
  intros Hwf. unfold mkdir. destruct recursive.
  - by apply mkdirp_wf.
  - destruct (fs_get f p) eqn:Hp; [by intros [= <- <-]|].
    by apply create_wf.
Qed.

(** Creating a directory that is already there changes nothing. *)
Lemma mkdirp_existing (made todo : path) (f : fs) :
  wf f → fs_get f (made ++ todo) = Some NDir → mkdirp made todo f = (Ok tt, f).
Proof.
  revert made. induction todo as [|n rest IH]; intros made Hwf Hdir; [done|].
  simpl. replace (made ++ n :: rest) with ((made ++ [n]) ++ rest) in Hdir
    by (by rewrite <- app_assoc).
  assert (fs_get f (made ++ [n]) = Some NDir) as ->.
  { destruct rest as [|m rest'].
    - by rewrite app_nil_r in Hdir.
    - rewrite fs_get_ne in Hdir by (by destruct made).
      by apply (wf_ancestor f _ (m :: rest') NDir). }
  by apply IH.
Qed.

Lemma follow_inv (n : nat) (f : fs) (p q : path) (o : option node) :
  follow n f p = Ok (q, o) → fs_get f q = o ∧ kind_of <$> o ≠ Some KLink.
Proof.
  revert p. induction n as [|n IH]; intros p; simpl.
  - destruct (fs_get f p) as [[]|] eqn:Hp; intros [= <- <-]; by rewrite Hp.
  - destruct (fs_get f p) as [[]|] eqn:Hp; try (intros [= <- <-]; by rewrite Hp).
    apply IH.
Qed.

Lemma copyFile_wf (src dest : path) (flags : Z) (f f' : fs) (r : res unit) :
  wf f → copyFile src dest flags f = (r, f') → wf f'.
Proof.
  intros Hwf. unfold copyFile.
  destruct (stat src f) as [[[data|t|]|e|] f0]; try by intros [= <- <-].
  case_bool_decide.
  - destruct (fs_get f dest) eqn:Hd; [by intros [= <- <-]|]. by apply create_wf.
  - destruct (follow _ f dest) as [[q [[d|t|]|]]|e|] eqn:Hfol; try by intros [= <- <-].
    + apply follow_inv in Hfol as [Hq _]. intros [= <- <-].
      assert (q ≠ []) as Hne by (by intros ->).
      rewrite fs_get_ne in Hq by done. destruct (Hwf _ _ Hq) as [_ Hdir].
      apply wf_insert; try done. right. by rewrite fs_get_ne, Hq.
    + apply follow_inv in Hfol as [Hq _]. by apply create_wf.
Qed.

Lemma symlinkFile_wf (target p : path) (f f' : fs) (r : res unit) :
  wf f → symlinkFile target p f = (r, f') → wf f'.
Proof.
  intros Hwf. unfold symlinkFile.
  destruct (fs_get f p) eqn:Hp; [by intros [= <- <-]|]. by apply create_wf.
Qed.

(** ** Removal *)

Lemma lift_eq {U A} (op : fsop A) (w : world U) (r : res A) (f' : fs) :
  op (w_fs w) = (r, f') → lift op w = (r, World f' (w_user w)).
Proof. unfold lift. by intros ->. Qed.

Lemma world_eta {U} (w : world U) : w = World (w_fs w) (w_user w).
Proof. by destruct w. Qed.

Lemma remove_tree_absent (p : path) (f : fs) :
  wf f → fs_get f p = None → (remove_tree p f) = f.
Proof.
  intros Hwf Hp. apply map_eq. intros k. rewrite remove_tree_lookup.
  case_decide as Hpre; [|done].
  destruct (f !! k) as [nd|] eqn:Hk; [|done].
  destruct (wf_prefix f p k nd Hwf Hpre Hk) as [x Hx]. congruence.
Qed.

Lemma stat_absent (p : path) (f : fs) : fs_get f p = None → stat p f = (Fail ENOENT, f).
Proof. intros Hp. unfold stat. destruct MAXSYMLINKS; simpl; by rewrite Hp. Qed.

Lemma follow_settles (n : nat) (f : fs) (p : path) : follow n f p ≠ Pending.
Proof.
  revert p. induction n as [|n IH]; intros p; simpl;
    destruct (fs_get f p) as [[]|]; done.
Qed.

(** The recursive [rmdir] resolves and the tree at [p] is gone, or it
    rejects, on the later runtime only, and changes nothing. *)
Lemma rmdir_recursive_inv (p : path) (f f' : fs) (r : res unit) :
  rmdir_recursive nodejs p f = (r, f') →
  (r = Ok tt ∧ f' = remove_tree p f) ∨
  (nodejs = Node16 ∧ f' = f ∧ ∃ error, r = Fail error).
Proof.
  unfold rmdir_recursive. destruct nodejs; [intros [= <- <-]; by left|].
  unfold stat. pose proof (follow_settles MAXSYMLINKS f p) as Hset.
  destruct (follow MAXSYMLINKS f p) as [[q [[]|]]|?|];
    try done; intros [= <- <-]; eauto.
Qed.

(** [remove] catches nothing: it settles as the recursive [rmdir] does. *)
Lemma remove_inv {U : Type} (p : path) (w w' : world U) (r : res unit) :
  remove p w = (r, w') →
  w_user w' = w_user w ∧
  ((r = Ok tt ∧ w_fs w' = remove_tree p (w_fs w)) ∨
   (nodejs = Node16 ∧ w_fs w' = w_fs w ∧ ∃ error, r = Fail error)).
Proof.
  unfold remove. intros [Hrm Hu]%lift_inv. split; [done|].
  by apply rmdir_recursive_inv.
Qed.

(** C8: [remove] is the recursive [rmdir] with nothing caught, so on a path
    where nothing is it settles as that primitive does: up to Node 14 it
    resolves and leaves the filesystem as it was, since Node 16 it rejects
    with ENOENT. *)
Theorem remove_absent_by_runtime {U : Type} (p : path) (w : world U) :
  wf (w_fs w) → fs_get (w_fs w) p = None →
  remove p w =
    (match nodejs with Node12 => Ok tt | Node16 => Fail ENOENT end, w).
Proof.
  intros Hwf Hp. unfold remove, lift, rmdir_recursive. destruct nodejs.
  - rewrite remove_tree_absent by done. by destruct w.
  - rewrite stat_absent by done. by destruct w.
Qed.

(** ** Linking a single file *)

Lemma kind_of_dir (nd : node) : kind_of nd = KDir ↔ nd = NDir.
Proof. by destruct nd. Qed.

Lemma symlinkFile_existing (target p : path) (f : fs) :
  is_Some (fs_get f p) → symlinkFile target p f = (Fail EEXIST, f).
Proof. intros [nd Hp]. unfold symlinkFile. by rewrite Hp. Qed.

Lemma symlinkFile_fresh (target p : path) (f : fs) :
  fs_get f p = None → fs_get f (dirname p) = Some NDir →
  symlinkFile target p f = (Ok tt, <[p := NLink target]> f).
Proof. intros Hp Hd. unfold symlinkFile, create. by rewrite Hp, Hd. Qed.

Lemma symlinkFile_inv (target p : path) (f f' : fs) (r : res unit) :
  symlinkFile target p f = (r, f') →
  (r = Ok tt ∧ f' = <[p := NLink target]> f ∧ fs_get f p = None) ∨ (r ≠ Ok tt ∧ f' = f).
Proof.
  unfold symlinkFile. destruct (fs_get f p) eqn:Hp; [intros [= <- <-]; auto|].
  intros [(-> & -> & _)|[? ->]]%create_inv; auto.
Qed.

(** Taking away what is at [dest] and linking there: the link is made in
    the filesystem without the tree at [dest], or, on the later runtime
    only, the removal rejects and nothing is changed. *)
Lemma replace_inv {U : Type} (src dest : path) (w1 w' : world U) (r : res unit) :
  (remove dest ;;; lift (symlinkFile (resolve src) dest)) w1 = (r, w') →
  (∃ w2, w_user w2 = w_user w1 ∧ w_fs w2 = remove_tree dest (w_fs w1) ∧
         lift (symlinkFile (resolve src) dest) w2 = (r, w')) ∨
  (nodejs = Node16 ∧ w' = w1 ∧ ∃ error, r = Fail error).
Proof.
  intros [([] & w2 & [Hu2 Hrm]%remove_inv & Hln)|[(e & [Hu2 Hrm]%remove_inv & ->)|[[Hu2 Hrm]%remove_inv ->]]]%bind_inv.
  - destruct Hrm as [[_ Hf2]|(_ & _ & ? & [=])]. left. by exists w2.
  - destruct Hrm as [[[=] _]|(? & Hf2 & _)]. right. split_and!; [done| |by exists e].
    by rewrite (world_eta w'), Hf2, Hu2, <- world_eta.
  - by destruct Hrm as [[[=] _]|(_ & _ & ? & [=])].
Qed.

(** Whatever it does, [__symlinkFile] keeps the filesystem well formed, and
    when it succeeds without [SYMLINK_EXCL] the link is in place. *)
Lemma __symlinkFile_wf {U : Type} (src dest : path) (flags : option Z)
    (w w' : world U) (r : res unit) :
  wf (w_fs w) → __symlinkFile src dest flags w = (r, w') →
  wf (w_fs w') ∧ w_user w' = w_user w.
Proof.
  intros Hwf. unfold __symlinkFile. unfold bind at 1. simpl.
  assert (∀ w1 : world U, wf (w_fs w1) → w_user w1 = w_user w →
            lift (symlinkFile (resolve src) dest) w1 = (r, w') →
            wf (w_fs w') ∧ w_user w' = w_user w) as Hlink.
  { intros w1 Hwf1 Hu1 [Hrun Hu]%lift_inv. split; [|congruence].
    by eapply symlinkFile_wf. }
  assert (∀ w1 : world U, wf (w_fs w1) → w_user w1 = w_user w →
            (remove dest ;;; lift (symlinkFile (resolve src) dest)) w1 = (r, w') →
            wf (w_fs w') ∧ w_user w' = w_user w) as Hreplace.
  { intros w1 Hwf1 Hu1 [(w2 & Hu2 & Hf2 & Hln)|(_ & -> & _)]%replace_inv; [|done].
    apply (Hlink w2); [|congruence|done]. rewrite Hf2. by apply remove_tree_wf. }
  destruct (_ || _); [by apply Hlink|].
  intros [(nd & w1 & [Hst Hu1]%lift_inv & Hrest)|[(e & [Hst Hu1]%lift_inv & ->)|[[Hst Hu1]%lift_inv ->]]]%bind_inv;
    apply lstat_inv in Hst as [Hf1 _]; [|by rewrite Hf1..].
  rewrite <- Hf1 in Hwf.
  destruct (isSymbolicLink nd); [|by apply (Hreplace w1)].
  apply bind_inv in Hrest as [(t & w2 & [Hrl Hu2]%lift_inv & Hrest)|[(e & [Hrl Hu2]%lift_inv & ->)|[[Hrl Hu2]%lift_inv ->]]];
    apply readlink_inv in Hrl; [|rewrite Hrl; split; [done|congruence]..].
  rewrite <- Hrl in Hwf.
  destruct (negb _); [apply (Hreplace w2); [done|congruence|done]|].
  injection Hrest as <- <-. split; [done|congruence].
Qed.

Lemma __symlinkFile_links {U : Type} (src dest : path) (flags : option Z) (w w' : world U) :
  truthy (Z.land (flag_bits flags) SYMLINK_EXCL) = false →
  __symlinkFile src dest flags w = (Ok tt, w') →
  w_fs w' !! dest = Some (NLink (resolve src)).
Proof.
  intros Hexcl. unfold __symlinkFile. rewrite Hexcl. unfold bind at 1. simpl.
  assert (∀ w1 : world U, lift (symlinkFile (resolve src) dest) w1 = (Ok tt, w') →
            w_fs w' !! dest = Some (NLink (resolve src))) as Hlink.
  { intros w1 [[(_ & -> & _)|[? _]]%symlinkFile_inv _]%lift_inv; [|done].
    apply lookup_insert_eq. }
  assert (∀ w1 : world U,
            (remove dest ;;; lift (symlinkFile (resolve src) dest)) w1 = (Ok tt, w') →
            w_fs w' !! dest = Some (NLink (resolve src))) as Hreplace.
  { intros w1 [(w2 & _ & _ & Hln)|(_ & _ & ? & [=])]%replace_inv. by eapply Hlink. }
  destruct (negb _); [by apply Hlink|].
  intros [(nd & w1 & [Hst Hu1]%lift_inv & Hrest)|[(e & _ & [=])|[_ [=]]]]%bind_inv.
  apply lstat_inv in Hst as [Hf1 Hnd]. specialize (Hnd nd eq_refl).
  destruct (isSymbolicLink nd); [|by apply (Hreplace w1)].
  apply bind_inv in Hrest as [(t & w2 & [Hrl Hu2]%lift_inv & Hrest)|[(e & _ & [=])|[_ [=]]]].
  destruct (negb _) eqn:Hsame; [by apply (Hreplace w2)|].
  injection Hrest as <-.
  apply negb_false_iff, bool_decide_eq_true in Hsame as <-.
  pose proof (readlink_inv _ _ _ _ Hrl) as Hf2. rewrite Hf2, Hf1.
  unfold readlink in Hrl.
  destruct dest as [|n dest']; [done|]. simpl in *.
  rewrite Hf1 in Hrl. by destruct (w_fs w !! (n :: dest')) as [[]|]; simplify_eq.
Qed.

(** C5: when [dest] already is a symbolic link to the resolved [src] and
    [SYMLINK_EXCL] is not set, linking the file [src] at [dest] again leaves
    the filesystem exactly as it was, and the call succeeds whenever the
    link resolves, on either runtime: the link is compared and kept, not
    taken away and made again (since Node 16 the removal of a link to a
    file is rejected, so a call that removed the link would not resolve). *)
Theorem symlink_again_is_noop {U : Type} (fuel : nat) (src dest : path)
    (flags : option Z) (f : fs) (u : U) (r : res unit) (w' : world U) :
  wf f →
  truthy (Z.land (flag_bits flags) SYMLINK_EXCL) = false →
  f !! dest = Some (NLink (resolve src)) →
  (stat src f).1 ≠ Ok NDir →
  symlink fuel src dest flags (World f u) = (r, w') →
  w' = World f u ∧
  (existsSync f dest = true → (∃ nd, (stat src f).1 = Ok nd) → r = Ok tt).
Proof.
  intros Hwf Hexcl Hdest Hfile Hrun.
  pose proof (Hwf _ _ Hdest) as [Hne Hparent].
  pose proof (fs_get_Some_lookup _ _ _ Hdest Hwf) as Hget.
  unfold symlink in Hrun.
  destruct (stat src f) as [rs fs'] eqn:Hstat.
  pose proof (stat_inv _ _ _ _ Hstat) as ->.
  rewrite (bind_ext_l _ (λ w, (rs, w)) _ _) in Hrun by (by apply lift_eq).
  destruct rs as [nd|e|]; unfold bind at 1 in Hrun; simpl in Hrun;
    [|injection Hrun as <- <-; split; [done|by intros _ [? [=]]]..].
  rewrite bool_decide_eq_false_2 in Hrun by (rewrite kind_of_dir; by intros ->).
  rewrite Hexcl in Hrun. simpl in Hrun.
  rewrite (bind_ext_l _ (ret tt) _ _) in Hrun
    by (apply lift_eq; unfold mkdir; by apply mkdirp_existing).
  unfold bind at 1 in Hrun. simpl in Hrun.
  unfold __symlinkFile in Hrun. rewrite Hexcl in Hrun.
  unfold bind at 1 in Hrun. simpl in Hrun.
  destruct (existsSync f dest) eqn:Hex; simpl in Hrun.
  - unfold bind, lift, lstat, readlink in Hrun. simpl in Hrun.
    rewrite Hget in Hrun. simpl in Hrun. rewrite Hget in Hrun. simpl in Hrun.
    rewrite bool_decide_eq_true_2 in Hrun by done. simpl in Hrun.
    by injection Hrun as <- <-.
  - unfold lift in Hrun. simpl in Hrun.
    rewrite symlinkFile_existing in Hrun by done.
    by injection Hrun as <- <-.
Qed.


(** C7: for a file [src], when [SYMLINK_EXCL] is set or [dest] does not
    exist, [__symlinkFile] is the bare link creation; with [SYMLINK_EXCL] an
    existing [dest] makes [symlink] fail with EEXIST and nothing changes,
    and a [dest] that is free in an existing directory gets the link. *)
Theorem symlink_file_exclusive_or_absent {U : Type} (fuel : nat) (src dest : path)
    (flags : option Z) (f : fs) (u : U) (nd : node) :
  stat src f = (Ok nd, f) → nd ≠ NDir →
  ((truthy (Z.land (flag_bits flags) SYMLINK_EXCL) = true ∨ existsSync f dest = false) →
     __symlinkFile src dest flags (World f u) =
     lift (symlinkFile (resolve src) dest) (World f u)) ∧
  (truthy (Z.land (flag_bits flags) SYMLINK_EXCL) = true → is_Some (fs_get f dest) →
     symlink fuel src dest flags (World f u) = (Fail EEXIST, World f u)) ∧
  (wf f → fs_get f dest = None → fs_get f (dirname dest) = Some NDir →
     symlink fuel src dest flags (World f u) =
     (Ok tt, World (<[dest := NLink (resolve src)]> f) u)).
Proof.
  intros Hstat Hfile.
  assert (∀ k : node → M U unit,
            (srcStat <- lift (stat src) ;; k srcStat) (World f u) = k nd (World f u))
    as Hbind.
  { intros k. by rewrite (bind_Ok _ _ _ (World f u) nd) by (by apply lift_eq). }
  assert (bool_decide (kind_of nd = KDir) = false) as Hnd
    by (apply bool_decide_eq_false_2; by rewrite kind_of_dir).
  assert ((truthy (Z.land (flag_bits flags) SYMLINK_EXCL) = true ∨ existsSync f dest = false) →
     __symlinkFile src dest flags (World f u) =
     lift (symlinkFile (resolve src) dest) (World f u)) as Hbare.
  { intros Hcase. unfold __symlinkFile. unfold bind at 1. simpl.
    by destruct Hcase as [-> | ->]; [|rewrite orb_true_r]. }
  split_and!; [done|..].
  - intros Hexcl Hdest. unfold symlink. rewrite Hbind, Hnd, Hexcl. simpl.
    unfold bind at 1. simpl. rewrite Hbare by auto.
    apply lift_eq. by apply symlinkFile_existing.
  - intros Hwf Hdest Hdir. unfold symlink. rewrite Hbind, Hnd.
    assert (existsSync f dest = false) as Hex.
    { unfold existsSync, stat. destruct MAXSYMLINKS; simpl; by rewrite Hdest. }
    assert (∀ c : M U unit, c (World f u) = (Ok tt, World f u) →
              (c ;;; __symlinkFile src dest flags) (World f u) =
              (Ok tt, World (<[dest := NLink (resolve src)]> f) u)) as Hthen.
    { intros c Hc. rewrite (bind_Ok _ _ _ _ _ Hc), Hbare by auto.
      apply lift_eq. by apply symlinkFile_fresh. }
    apply Hthen. destruct (negb _); [|done].
    apply lift_eq. unfold mkdir. by apply mkdirp_existing.
Qed.


Lemma existsSync_Some (f : fs) (p : path) :
  existsSync f p = true → is_Some (fs_get f p).
Proof.
  unfold existsSync, stat. destruct MAXSYMLINKS as [|n]; simpl;
    destruct (fs_get f p) as [nd|]; eauto; done.
Qed.

Lemma remove_then_link (dest target : path) (f : fs) (nd : node) :
  wf f → f !! dest = Some nd →
  symlinkFile target dest (remove_tree dest f) =
  (Ok tt, <[dest := NLink target]> (remove_tree dest f)).
Proof.
  intros Hwf Hd. destruct (Hwf _ _ Hd) as [Hne Hdir].
  apply symlinkFile_fresh.
  - rewrite fs_get_ne by done. rewrite remove_tree_lookup. by rewrite decide_True.
  - destruct (path_snoc_or_nil (dirname dest)) as [->|(q & m & Hq)]; [done|].
    rewrite Hq in *. rewrite fs_get_snoc in *.
    rewrite remove_tree_lookup, decide_False; [done|].
    rewrite <- Hq. intros Hpre. apply prefix_length in Hpre.
    destruct (path_snoc_or_nil dest) as [?|(d' & m' & ->)]; [done|].
    rewrite dirname_snoc, length_app in Hpre. simpl in Hpre. lia.
Qed.

(** Up to Node 14, when [dest] is seen by [existsSync], linking over it
    without [SYMLINK_EXCL] succeeds: the entry is kept if it is the wanted
    link and replaced otherwise. *)
Lemma __symlinkFile_replaces {U : Type} (src dest : path) (flags : option Z) (w : world U) :
  nodejs = Node12 →
  wf (w_fs w) → dest ≠ [] →
  truthy (Z.land (flag_bits flags) SYMLINK_EXCL) = false →
  existsSync (w_fs w) dest = true →
  (__symlinkFile src dest flags w).1 = Ok tt.
Proof.
  intros Hrt Hwf Hne Hexcl Hex.
  destruct (existsSync_Some _ _ Hex) as [nd Hget].
  pose proof Hget as Hl. rewrite fs_get_ne in Hl by done.
  pose proof (remove_then_link dest (resolve src) _ _ Hwf Hl) as Hrl.
  assert (∀ w1 : world U, w_fs w1 = w_fs w →
            ((remove dest ;;; lift (symlinkFile (resolve src) dest)) w1).1 = Ok tt)
    as Hreplace.
  { intros w1 Hf1. unfold bind, remove, lift, rmdir_recursive. rewrite Hrt, Hf1.
    cbn [fst snd w_fs]. by rewrite Hrl. }
  unfold __symlinkFile. rewrite Hexcl. unfold bind at 1. simpl. rewrite Hex. simpl.
  rewrite (bind_Ok _ _ w w nd) by (unfold lift, lstat; rewrite Hget; by destruct w).
  destruct (isSymbolicLink nd) eqn:Hlnk; [|by apply Hreplace].
  destruct nd as [data|t|]; try done.
  rewrite (bind_Ok _ _ w w t) by (unfold lift, readlink; rewrite Hget; by destruct w).
  case_bool_decide; simpl; [done|by apply Hreplace].
Qed.

(** ** Linking a directory over a dangling link *)

(** C10: [symlink('src', 'dst')] in directory mode, no flags, where [dst/x]
    is a dangling link: [existsSync] does not see the link, the bare link
    creation is attempted and the mirror fails with EEXIST. *)
Example symlink_directory_dangling_collision :
  wf dangling_fs ∧
  existsSync dangling_fs ["dst"; "x"] = false ∧
  symlink 2 ["src"] ["dst"] None (World dangling_fs tt) =
    (Fail EEXIST, World dangling_fs tt).
Proof.
  split; [apply wfb_wf; by vm_compute|]. split; by vm_compute.
Qed.

(** ** Invariants of a walk, and logging as a faithful observer *)

(** What every visitor call preserves, the walk preserves. *)
Lemma walk_invariant {U : Type} (I : world U → Prop) (fuel : nat) (p : path)
    (opts : WalkOptions U) (w w' : world U) (r : res unit) :
  (∀ q d w r w', q ≠ [] → I w → call (walker opts) q d w = (r, w') → I w') →
  I w → __walk fuel p opts w = (r, w') → I w'.
Proof.
  intros Hcall. revert p w r w'.
  induction fuel as [|fuel IH]; intros p w r w' HI Hrun.
  { by injection Hrun as <- <-. }
  simpl in Hrun.
  assert (∀ (x : dirent) (k : jsval → M U unit) w2 r2 w3,
            (∀ v1 w4, I w4 → k v1 w4 = (r2, w3) → I w3) →
            I w2 → (v1 <- call (walker opts) (join p [name x]) x ;; k v1) w2 = (r2, w3) →
            I w3) as Hvisit.
  { intros x k w2 r2 w3 Hk HI2
      [(v1 & w4 & Hc & Hrest)|[(e & Hc & ->)|[Hc ->]]]%bind_inv;
      apply Hcall in Hc; try done; try (by destruct p).
    by eapply Hk. }
  assert (∀ (r1 : res (list dirent)) w1,
            lift (readdir (join (root opts) p)) w = (r1, w1) → w1 = w) as Hsame.
  { intros r1 w1 [[Hfs _]%readdir_inv Hu]%lift_inv.
    by rewrite (world_eta w1), Hfs, Hu, <- world_eta. }
  apply bind_inv in Hrun as [(files & w1 & Hrd & Hloop)|[(e & Hrd & ->)|[Hrd ->]]];
    apply Hsame in Hrd as ->; [|done..].
  apply (for_of_inv (λ _ w2, I w2)) in Hloop as (_ & _ & _ & Hend & _); [done..|].
  intros done x rest w2 r2 w3 _ HI2 Hbody.
  destruct (isDirectory x); [destruct (truthy _)|].
  - apply bind_inv in Hbody as [([] & w4 & Hsub & Hrest)|[(e & Hsub & ->)|[Hsub ->]]];
      apply IH in Hsub; try done.
    revert Hrest. apply Hvisit; [|done]. by intros v1 w5 HI5 [= <- <-].
  - revert Hbody. apply Hvisit; [|done]. intros v1 w4 HI4.
    destruct (strict_ne_false v1); [intros Hsub; by eapply IH|by intros [= <- <-]].
  - revert Hbody. apply Hvisit; [|done]. by intros v1 w5 HI5 [= <- <-].
Qed.

Lemma logged_erase {U : Type} (v : visitor U) (p : path) (d : dirent)
    (w w' : world (list entry * U)) (r : res jsval) :
  logged v p d w = (r, w') → v p d (erase w) = (r, erase w').
Proof.
  unfold logged, erase. destruct (v p d _) as [r0 [f1 u1]]. by intros [= <- <-].
Qed.

Lemma bind_sim {U V A B} (R : world U → world V) (c1 : M U A) (c2 : M V A)
    (k1 : A → M U B) (k2 : A → M V B) (w w' : world U) (r : res B) :
  (∀ r w', c1 w = (r, w') → c2 (R w) = (r, R w')) →
  (∀ a w1 r w', k1 a w1 = (r, w') → k2 a (R w1) = (r, R w')) →
  bind c1 k1 w = (r, w') → bind c2 k2 (R w) = (r, R w').
Proof.
  intros Hc Hk. unfold bind. destruct (c1 w) as [r1 w1].
  rewrite (Hc _ _ eq_refl). destruct r1; [by apply Hk|by intros [= <- <-]..].
Qed.

Lemma for_of_sim {U V A} (R : world U → world V) (l : list A)
    (b1 : A → M U unit) (b2 : A → M V unit) (w w' : world U) (r : res unit) :
  (∀ x w r w', b1 x w = (r, w') → b2 x (R w) = (r, R w')) →
  for_of l b1 w = (r, w') → for_of l b2 (R w) = (r, R w').
Proof.
  intros Hb. revert w r w'. induction l as [|x l IH]; intros w r w'; simpl.
  - by intros [= <- <-].
  - apply bind_sim; [apply Hb|]. intros _. apply IH.
Qed.

(** The walk with the logged visitor is the walk with the visitor itself. *)
Lemma walk_logged_erase {U : Type} (v : visitor U) (fuel : nat) (p rt : path)
    (fl : jsarg (list entry * U)) (fl' : jsarg U)
    (w w' : world (list entry * U)) (r : res unit) :
  truthy (Z.land (arg_bits fl) WALK_FILEFIRST) =
  truthy (Z.land (arg_bits fl') WALK_FILEFIRST) →
  __walk fuel p {| root := rt; flags := fl; walker := AFunction (logged v) |} w = (r, w') →
  __walk fuel p {| root := rt; flags := fl'; walker := AFunction v |} (erase w) = (r, erase w').
Proof.
  intros Hfl. revert p w r w'. induction fuel as [|fuel IH]; intros p w r w'.
  { by intros [= <- <-]. }
  simpl. rewrite Hfl. apply bind_sim.
  { intros r1 w1. unfold lift, erase. simpl.
    destruct (readdir _ _) as [r0 f0]. by intros [= <- <-]. }
  intros files w1 r1 w2. apply for_of_sim. intros x w3 r3 w4.
  assert (∀ r w w', (logged v (join p [name x]) x ;;; ret tt) w = (r, w') →
            (v (join p [name x]) x ;;; ret tt) (erase w) = (r, erase w')) as Hleaf.
  { intros r0 w0 w0'. apply bind_sim; [intros ? ?; apply logged_erase|].
    by intros _ w5 r5 w5' [= <- <-]. }
  destruct (isDirectory x); [|apply Hleaf].
  destruct (truthy (Z.land (arg_bits fl') WALK_FILEFIRST)).
  - apply bind_sim; [intros ? ?; apply IH|]. intros _ ? ? ?. apply Hleaf.
  - apply bind_sim; [intros ? ?; apply logged_erase|]. intros v1 w5 r5 w5'.
    destruct (strict_ne_false v1); [apply IH|by intros [= <- <-]].
Qed.

(** ** The reconciliation pass *)

Lemma prune_walker_run (dest q : path) (d : dirent) (f : fs) (V : list path) :
  prune_walker dest q d (World f (Some V)) =
  if decide (dest ++ q ∈ V) then (Ok VUndefined, World f (Some V))
  else
    let (r, f') := rmdir_recursive nodejs (dest ++ q) f in
    (match r with
     | Ok _ => Ok (VBool false)
     | Fail error => Fail error
     | Pending => Pending
     end, World f' (Some V)).
Proof.
  unfold prune_walker, bind, get_user, includes, ret, join. simpl.
  case_decide as Hin.
  - by rewrite bool_decide_eq_true_2.
  - rewrite bool_decide_eq_false_2 by done. simpl. unfold remove, lift. simpl.
    by destruct (rmdir_recursive _ _ _) as [[[]|?|] ?].
Qed.

Lemma verdict_rmdir (dest q : path) (V : list path) (f : fs) (e : entry) :
  verdict dest V f e → verdict dest V (remove_tree q f) e.
Proof.
  unfold verdict. case_decide; [done|]. intros [[Hret Hgone]|?]; [left|by right].
  split; [done|].
  intros k Hk. rewrite remove_tree_lookup. case_decide; [done|]. by apply Hgone.
Qed.

Lemma observed_prune_verdicts (fuel : nat) (dest p : path) (V : list path)
    (w w' : world (list entry * existent)) (r : res unit) :
  (w_user w).2 = Some V →
  (∀ e, e ∈ trace w → verdict dest V (w_fs w) e) →
  __walk fuel p (observed_prune dest) w = (r, w') →
  (w_user w').2 = Some V ∧ ∀ e, e ∈ trace w' → verdict dest V (w_fs w') e.
Proof.
  intros HV Hver.
  apply (walk_invariant
    (λ w, (w_user w).2 = Some V ∧ ∀ e, e ∈ trace w → verdict dest V (w_fs w) e));
    [|done].
  clear. intros q d [f [L u]] r [f' [L' u']] _ [Hu Hver]. simpl in Hu. subst u.
  unfold observed_prune, call, walker, logged. simpl.
  rewrite prune_walker_run. unfold trace in *. simpl in *.
  case_decide as Hin.
  - intros [= <- <- <- <-]. split; [done|].
    intros e [He| ->%list_elem_of_singleton]%elem_of_app; [by apply Hver|].
    unfold verdict, e_path, e_ret. simpl. by rewrite decide_True.
  - destruct (rmdir_recursive nodejs (dest ++ q) f) as [r1 f1] eqn:Hrm.
    intros [= <- <- <- <-]. split; [done|].
    apply rmdir_recursive_inv in Hrm as [[-> ->]|(Hrt & -> & error & ->)].
    + intros e [He| ->%list_elem_of_singleton]%elem_of_app.
      * apply (verdict_rmdir dest (dest ++ q)). by apply Hver.
      * unfold verdict, e_path, e_ret. simpl. rewrite decide_False by done.
        left. split; [done|]. intros k Hk.
        by rewrite remove_tree_lookup, decide_True.
    + intros e [He| ->%list_elem_of_singleton]%elem_of_app; [by apply Hver|].
      unfold verdict, e_path, e_ret. simpl. rewrite decide_False by done.
      right. split; [done|]. by exists error.
Qed.




(** ** Growth of the filesystem, and destinations that are free *)

Lemma extends_refl (P : path → Prop) (f : fs) : extends P f f.
Proof. split; [done|]. intros k -> [? [=]]. Qed.

Lemma extends_trans (P Q : path → Prop) (f1 f2 f3 : fs) :
  extends P f1 f2 → extends Q f2 f3 → extends (λ k, P k ∨ Q k) f1 f3.
Proof.
  intros [Hsub1 Hnew1] [Hsub2 Hnew2]. split; [by etrans|].
  intros k Hk1 Hk3. destruct (f2 !! k) as [nd|] eqn:Hk2; [left|right]; eauto.
Qed.

Lemma extends_weaken (P Q : path → Prop) (f f' : fs) :
  (∀ k, P k → Q k) → extends P f f' → extends Q f f'.
Proof. intros HPQ [Hsub Hnew]. split; [done|]. eauto. Qed.

Lemma extends_insert (f : fs) (c : path) (nd : node) :
  c ≠ [] → fs_get f c = None → extends (λ k, k = c) f (<[c := nd]> f).
Proof.
  intros Hne Hc. rewrite fs_get_ne in Hc by done. split.
  - by apply insert_subseteq.
  - intros k Hk Hk'. destruct (decide (c = k)) as [|Hck]; [done|].
    rewrite lookup_insert_ne, Hk in Hk' by done. by destruct Hk'.
Qed.

Lemma follow_absent (n : nat) (f : fs) (p : path) :
  fs_get f p = None → follow n f p = Ok (p, None).
Proof. intros Hp. destruct n; simpl; by rewrite Hp. Qed.

Lemma fs_get_None_ne (f : fs) (p : path) : fs_get f p = None → p ≠ [].
Proof. by intros H ->. Qed.

Lemma mkdir_fresh_inv (c : path) (f f' : fs) (r : res unit) :
  mkdir c false f = (r, f') →
  (r = Ok tt ∧ f' = <[c := NDir]> f ∧ fs_get f c = None) ∨ (r ≠ Ok tt ∧ f' = f).
Proof.
  unfold mkdir. destruct (fs_get f c) eqn:Hc; [intros [= <- <-]; auto|].
  intros [(-> & -> & _)|[? ->]]%create_inv; auto.
Qed.

(** Copying to a path that is free creates the file with the data of the
    source, or fails and changes nothing. *)
Lemma copyFile_fresh_inv (s c : path) (f f' : fs) (r : res unit) :
  fs_get f c = None → copyFile s c 0 f = (r, f') →
  (r = Ok tt ∧ ∃ data, (stat s f).1 = Ok (NFile data) ∧ f' = <[c := NFile data]> f) ∨
  (r ≠ Ok tt ∧ f' = f).
Proof.
  intros Hc. unfold copyFile.
  destruct (stat s f) as [[[data|t|]|e|] f0]; try (intros [= <- <-]; auto).
  rewrite bool_decide_eq_false_2 by (by intros H; apply H).
  rewrite follow_absent by done.
  intros [(-> & -> & _)|[? ->]]%create_inv; [left|auto].
  split; [done|]. by exists data.
Qed.

Lemma push_inv (destPath : path) (w w' : world existent) (r : res unit) :
  push destPath w = (r, w') →
  r = Ok tt ∧ w_fs w' = w_fs w ∧
  w_user w' = (λ l, l ++ [destPath]) <$> w_user w.
Proof.
  unfold push, bind, get_user, set_user, ret.
  destruct (w_user w) as [l|] eqn:Hu; intros [= <- <-]; simpl; by rewrite ?Hu.
Qed.

Lemma with_local_inv {U V A} (v : V) (c : M V A) (w w' : world U) (r : res A) :
  with_local v c w = (r, w') →
  ∃ w1, c (World (w_fs w) v) = (r, w1) ∧ w' = World (w_fs w1) (w_user w).
Proof.
  unfold with_local. destruct (c _) as [r1 w1]. intros [= <- <-]. eauto.
Qed.

(** A call of the reconciliation visitor leaves the filesystem as it is,
    or takes the tree at its path away. *)
Lemma prune_walker_inv (dest q : path) (d : dirent) (w w' : world existent)
    (r : res jsval) :
  prune_walker dest q d w = (r, w') →
  w_user w' = w_user w ∧
  (w_fs w' = w_fs w ∨
   (w_fs w' = remove_tree (dest ++ q) (w_fs w) ∧ r = Ok (VBool false))).
Proof.
  unfold prune_walker, join.
  intros [(V & w1 & [= <- <-] & Hrest)|[(e & [=] & _)|[[=] _]]]%bind_inv.
  destruct (w_user w) as [l|] eqn:Hu; [|injection Hrest as <- <-; auto].
  simpl in Hrest. unfold bind at 1, ret at 1 in Hrest.
  destruct (negb _); [|injection Hrest as <- <-; auto].
  apply bind_inv in Hrest as [([] & w2 & [Hu2 Hrm]%remove_inv & [= <- <-])|[(e & [Hu2 Hrm]%remove_inv & ->)|[[Hu2 Hrm]%remove_inv ->]]];
    (split; [congruence|]).
  - destruct Hrm as [[_ ->]|(_ & -> & _)]; auto.
  - destruct Hrm as [[[=] _]|(_ & -> & _)]; auto.
  - destruct Hrm as [[[=] _]|(_ & -> & _)]; auto.
Qed.

(** The reconciliation walk touches nothing outside the destination. *)
Lemma prune_walk_outside (fuel : nat) (dest p : path)
    (w w' : world existent) (r : res unit) :
  __walk fuel p (prune_options dest) w = (r, w') →
  ∀ k, ¬ inside dest k → w_fs w' !! k = w_fs w !! k.
Proof.
  apply (walk_invariant (λ w2, ∀ k, ¬ inside dest k → w_fs w2 !! k = w_fs w !! k));
    [|done].
  intros q d w2 r2 w3 Hq HI. simpl.
  intros [_ [->|[-> _]]]%prune_walker_inv; [done|].
  intros k Hk. rewrite remove_tree_lookup, decide_False; [by apply HI|].
  intros Hpre. apply Hk. eapply inside_trans; [by apply inside_app|done].
Qed.

(** ** Pruning is exact *)

(** Membership in [done ++ [x]] and in [done ++ x :: rest]. *)
Ltac in_app :=
  apply elem_of_app; solve [ by left | right; by left ].

Lemma inside_prefix_snoc (b q : path) (n : string) :
  inside b q → q `prefix_of` b ++ [n] → q = b ++ [n].
Proof.
  intros (m & t & ->)%inside_inv [s Hs].
  rewrite <- app_assoc in Hs. apply app_inv_head in Hs.
  simpl in Hs. injection Hs as -> Hs.
  symmetry in Hs. by apply app_eq_nil in Hs as [-> _].
Qed.

Lemma prefix_or_inside (a b : path) : a `prefix_of` b → b = a ∨ inside a b.
Proof. intros H. destruct (decide (b = a)); [by left|by right]. Qed.

Lemma keep_child (V : list path) (base k : path) (n : string) :
  base ++ [n] ∈ V → keep V (base ++ [n]) k → base ++ [n] `prefix_of` k → keep V base k.
Proof.
  intros Hc Hkeep Hck q Hq Hqk.
  destruct (prefix_weak_total _ _ _ Hqk Hck) as [Hqc|Hcq].
  - by rewrite (inside_prefix_snoc _ _ _ Hq Hqc).
  - destruct (prefix_or_inside _ _ Hcq) as [->|Hin]; [done|]. by apply Hkeep.
Qed.

Lemma keep_descend (V : list path) (base k : path) (n : string) :
  (base ++ [n] `prefix_of` k → keep V base k) → keep V (base ++ [n]) k.
Proof.
  intros Hkeep q Hq Hqk. apply Hkeep; [|by eapply inside_trans; [apply inside_snoc|apply Hq]|done].
  etrans; [apply Hq|done].
Qed.

Lemma prune_walk_exact (fuel : nat) (dest p : path) (V : list path) (f : fs)
    (w' : world existent) :
  wf f →
  __walk fuel p (prune_options dest) (World f (Some V)) = (Ok tt, w') →
  w_user w' = Some V ∧ wf (w_fs w') ∧
  ∀ k nd, w_fs w' !! k = Some nd ↔ f !! k = Some nd ∧ keep V (dest ++ p) k.
Proof.
  revert p f w'. induction fuel as [|fuel IH]; intros p f w' Hwf Hrun; [done|].
  simpl in Hrun.
  apply bind_inv in Hrun as [(files & w1 & Hrd & Hloop)|[(e & _ & [=])|[_ [=]]]].
  apply lift_inv in Hrd as [[Hfs Hfiles]%readdir_inv Hu].
  cbn [w_fs w_user root prune_options] in Hfs, Hfiles, Hu.
  change (join dest p) with (dest ++ p) in Hfiles.
  destruct (Hfiles files eq_refl) as [-> _].
  assert (w1 = World f (Some V)) as -> by (by rewrite (world_eta w1), Hfs, Hu).
  clear Hfs Hu Hfiles.
  set (base := dest ++ p) in *.
  apply (for_of_Ok (λ done w2,
    w_user w2 = Some V ∧ wf (w_fs w2) ∧
    ∀ k nd, w_fs w2 !! k = Some nd ↔
            f !! k = Some nd ∧
            ∀ y, y ∈ done → base ++ [name y] `prefix_of` k → keep V base k))
    in Hloop.
  - destruct Hloop as (Hu & Hwf' & Hchar). split_and!; [done..|].
    intros k nd. rewrite Hchar. split; intros [Hk Hkeep]; (split; [done|]).
    + intros q Hq Hqk.
      destruct (inside_inv base k (inside_trans _ _ _ Hq Hqk)) as (n & t & Hkn).
      assert (base ++ [n] `prefix_of` k) as Hnk
        by (exists t; by rewrite <- app_assoc).
      destruct (wf_prefix f _ k nd Hwf Hnk Hk) as [nd0 Hn].
      rewrite fs_get_snoc in Hn.
      apply (Hkeep (Dirent n (kind_of nd0))); [|done..].
      apply elem_of_listing. by exists nd0.
    + by intros y _ _.
  - split_and!; [done..|]. intros k nd. split; [|by intros [? _]].
    intros Hk. split; [done|]. intros y Hy. by apply elem_of_nil in Hy.
  - intros done x rest w2 w3 Hsplit (Hu2 & Hwf2 & Hchar2) Hbody.
    assert (x ∈ listing f base) as Hx by (rewrite Hsplit; in_app).
    apply elem_of_listing in Hx as (nd0 & Hc & Hkind).
    rewrite (world_eta w2), Hu2 in Hbody.
    assert (dest ++ join p [name x] = base ++ [name x]) as Hjoin
      by (unfold base, join; by rewrite app_assoc).
    (* what the invariant becomes in each of the three outcomes *)
    assert (base ++ [name x] ∉ V →
            ∀ k nd, (remove_tree (base ++ [name x]) (w_fs w2)) !! k = Some nd ↔
              f !! k = Some nd ∧
              ∀ y, y ∈ done ++ [x] → base ++ [name y] `prefix_of` k → keep V base k)
      as Hremoved.
    { intros Hout k nd. rewrite remove_tree_lookup.
      case_decide as Hck.
      - split; [done|]. intros [_ Hkeep]. destruct Hout.
        apply (Hkeep x); [in_app|done|apply inside_snoc|done].
      - rewrite Hchar2. split; intros [Hk Hkeep]; (split; [done|]).
        + intros y [Hy| ->%list_elem_of_singleton]%elem_of_app; [by apply Hkeep|done].
        + intros y Hy. apply Hkeep. in_app. }
    assert (base ++ [name x] ∈ V → d_kind x ≠ KDir →
            ∀ k nd, w_fs w2 !! k = Some nd ↔
              f !! k = Some nd ∧
              ∀ y, y ∈ done ++ [x] → base ++ [name y] `prefix_of` k → keep V base k)
      as Hleaf.
    { intros Hin Hnd k nd. rewrite Hchar2. split; intros [Hk Hkeep]; (split; [done|]).
      - intros y [Hy| ->%list_elem_of_singleton]%elem_of_app; [by apply Hkeep|].
        intros Hck. destruct (prefix_or_inside _ _ Hck) as [->|Hk_in].
        + intros q Hq Hqc. by rewrite (inside_prefix_snoc _ _ _ Hq Hqc).
        + pose proof (wf_inside f _ k nd Hwf Hk_in Hk) as Hdir.
          rewrite fs_get_snoc, Hc in Hdir. injection Hdir as ->. by destruct Hnd.
      - intros y Hy. apply Hkeep. in_app. }
    assert (base ++ [name x] ∈ V →
            ∀ w4, w_user w4 = Some V → wf (w_fs w4) →
              (∀ k nd, w_fs w4 !! k = Some nd ↔
                       w_fs w2 !! k = Some nd ∧ keep V (base ++ [name x]) k) →
            ∀ k nd, w_fs w4 !! k = Some nd ↔
              f !! k = Some nd ∧
              ∀ y, y ∈ done ++ [x] → base ++ [name y] `prefix_of` k → keep V base k)
      as Hdir.
    { intros Hin w4 Hu4 Hwf4 Hchar4 k nd. rewrite Hchar4, Hchar2.
      split.
      - intros [[Hk Hkeep] Hsub]. split; [done|].
        intros y [Hy| ->%list_elem_of_singleton]%elem_of_app; [by apply Hkeep|].
        by apply keep_child.
      - intros [Hk Hkeep]. split_and!; [done| |].
        + intros y Hy. apply Hkeep. in_app.
        + apply keep_descend. apply Hkeep. in_app. }
    move Hbody at bottom.
    destruct (isDirectory x) eqn:Hisdir; simpl in Hbody;
      unfold bind at 1 in Hbody; rewrite prune_walker_run, Hjoin in Hbody;
      case_decide as Hin;
      try (destruct (rmdir_recursive nodejs (base ++ [name x]) (w_fs w2))
             as [r1 f1] eqn:Hrm;
           apply rmdir_recursive_inv in Hrm as [[-> ->]|(_ & _ & error & ->)];
           [|by simpl in Hbody]);
      simpl in Hbody.
    + apply IH in Hbody as (Hu3 & Hwf3 & Hchar3); [|done].
      split_and!; [done..|]. rewrite Hjoin in Hchar3. by apply Hdir.
    + injection Hbody as <-. simpl. split_and!; [done| |by apply Hremoved].
      apply (remove_tree_wf _ _ Hwf2).
    + injection Hbody as <-. simpl. split_and!; [done..|]. apply Hleaf; [done|].
      unfold isDirectory in Hisdir. by apply bool_decide_eq_false in Hisdir.
    + injection Hbody as <-. simpl. split_and!; [done| |by apply Hremoved].
      apply (remove_tree_wf _ _ Hwf2).
Qed.

(** ** The reconciliation walk returns *)

Lemma for_of_completes {U A} (I : list A → world U → Prop)
    (l : list A) (body : A → M U unit) (w0 : world U) :
  I [] w0 →
  (∀ done x rest w, l = done ++ x :: rest → I done w →
     ∃ w', body x w = (Ok tt, w') ∧ I (done ++ [x]) w') →
  ∃ w', for_of l body w0 = (Ok tt, w') ∧ I l w'.
Proof.
  revert I w0. induction l as [|x l IH]; intros I w0 H0 Hstep.
  - exists w0. by split.
  - destruct (Hstep [] x l w0 eq_refl H0) as (w1 & Hx & H1).
    destruct (IH (λ done, I (x :: done)) w1 H1) as (w' & Hrun & Hend).
    + intros done y rest w -> HI. by apply (Hstep (x :: done) y rest w).
    + exists w'. split; [|done]. simpl. by rewrite (bind_Ok _ _ _ _ _ Hx).
Qed.

(** One level of the reconciliation walk completes when the walks of the
    recorded sub-directories do. *)
Lemma prune_level_completes (fuel : nat) (dest p : path) (V : list path) (f : fs) :
  nodejs = Node12 →
  (∀ x f2, wf f2 → f2 ⊆ f → f2 !! (dest ++ p ++ [name x]) = Some NDir →
     dest ++ p ++ [name x] ∈ V →
     ∃ w', __walk fuel (join p [name x]) (prune_options dest) (World f2 (Some V)) =
           (Ok tt, w')) →
  wf f → fs_get f (dest ++ p) = Some NDir →
  ∃ w', __walk (S fuel) p (prune_options dest) (World f (Some V)) = (Ok tt, w').
Proof.
  intros Hrt Hdescend Hwf Hdir. rewrite __walk_unfold.
  rewrite (bind_Ok _ _ _ (World f (Some V)) (listing f (dest ++ p)))
    by (apply lift_eq; simpl; unfold readdir, join; by rewrite Hdir).
  set (base := dest ++ p) in *.
  destruct (for_of_completes (λ done w2,
    w_user w2 = Some V ∧ wf (w_fs w2) ∧ w_fs w2 ⊆ f ∧
    ∀ k nd, f !! k = Some nd →
            (∀ y, y ∈ done → ¬ base ++ [name y] `prefix_of` k) →
            w_fs w2 !! k = Some nd)
    (listing f base)
    (λ file,
       let filePath := join p [name file] in
       if isDirectory file then
         if truthy (Z.land (arg_bits (flags (prune_options dest))) WALK_FILEFIRST) then
           __walk fuel filePath (prune_options dest) ;;;
           call (walker (prune_options dest)) filePath file ;;;
           ret tt
         else
           needNested <- call (walker (prune_options dest)) filePath file ;;
           if strict_ne_false needNested then __walk fuel filePath (prune_options dest)
           else ret tt
       else
         call (walker (prune_options dest)) filePath file ;;;
         ret tt)
    (World f (Some V))) as (w' & Hrun & _); [by split_and!| |by exists w'].
  intros done x rest w2 Hsplit (Hu2 & Hwf2 & Hsub2 & Hkept2).
  assert (x ∈ listing f base) as Hx by (rewrite Hsplit; in_app).
  apply elem_of_listing in Hx as (nd0 & Hc & Hkind).
  apply NoDup_listing_split in Hsplit.
  assert (dest ++ join p [name x] = base ++ [name x]) as Hjoin
    by (unfold base, join; by rewrite app_assoc).
  assert (w_fs w2 !! (base ++ [name x]) = Some nd0) as Hc2.
  { apply Hkept2; [done|]. intros y Hy Hpre. destruct Hsplit.
    rewrite <- (prefix_sibling base (name y) (name x) (base ++ [name y]) (base ++ [name x]));
      [by apply list_elem_of_fmap_2|done..]. }
  assert (∀ k nd, f !! k = Some nd →
            (∀ y, y ∈ done ++ [x] → ¬ base ++ [name y] `prefix_of` k) →
            w_fs w2 !! k = Some nd ∧ ¬ base ++ [name x] `prefix_of` k) as Houtside.
  { intros k nd Hk Hno. split.
    - apply Hkept2; [done|]. intros y Hy. apply Hno. in_app.
    - apply Hno. in_app. }
  assert (let w3 := World (remove_tree (base ++ [name x]) (w_fs w2)) (Some V) in
            w_user w3 = Some V ∧ wf (w_fs w3) ∧ w_fs w3 ⊆ f ∧
            ∀ k nd, f !! k = Some nd →
              (∀ y, y ∈ done ++ [x] → ¬ base ++ [name y] `prefix_of` k) →
              w_fs w3 !! k = Some nd) as Hremoved.
  { split_and!; [done|by apply remove_tree_wf| |].
    - etrans; [apply map_filter_subseteq|done].
    - intros k nd Hk Hno. destruct (Houtside k nd Hk Hno) as [Hk2 Hnc].
      cbn [w_fs]. by rewrite remove_tree_lookup, decide_False. }
  assert (w_user w2 = Some V ∧ wf (w_fs w2) ∧ w_fs w2 ⊆ f ∧
            ∀ k nd, f !! k = Some nd →
              (∀ y, y ∈ done ++ [x] → ¬ base ++ [name y] `prefix_of` k) →
              w_fs w2 !! k = Some nd) as Hsame.
  { split_and!; [done..|]. intros k nd Hk Hno. by apply Houtside. }
  cbv beta zeta. rewrite (world_eta w2), Hu2.
  change (truthy (Z.land (arg_bits (flags (prune_options dest))) WALK_FILEFIRST))
    with false.
  destruct (isDirectory x) eqn:Hisdir; cbv iota;
    unfold bind at 1; simpl call; rewrite prune_walker_run, Hjoin;
    case_decide as Hin; unfold rmdir_recursive; rewrite ?Hrt; simpl.
  - unfold isDirectory in Hisdir. apply bool_decide_eq_true in Hisdir.
    assert (nd0 = NDir) as -> by (destruct nd0; simpl in *; congruence).
    destruct (Hdescend x (w_fs w2)) as (w4 & Hsub); [done..| | |].
    { unfold base in Hc2. by rewrite <- app_assoc in Hc2. }
    { unfold base in Hin. by rewrite <- app_assoc in Hin. }
    exists w4. split; [done|].
    apply prune_walk_exact in Hsub as (Hu4 & Hwf4 & Hchar4); [|done].
    rewrite Hjoin in Hchar4. split_and!; [done..| |].
    + etrans; [|done]. apply map_subseteq_spec. intros k nd Hk.
      by apply Hchar4 in Hk as [Hk _].
    + intros k nd Hk Hno. destruct (Houtside k nd Hk Hno) as [Hk2 Hnc].
      apply Hchar4. split; [done|]. intros q Hq Hqk. destruct Hnc.
      etrans; [apply Hq|done].
  - eexists. split; [done|exact Hremoved].
  - exists w2. split; [by rewrite <- Hu2, <- world_eta|done].
  - eexists. split; [done|exact Hremoved].
Qed.

(** The reconciliation walk completes: with one unit of fuel more than the
    deepest entry below the directory it starts from, it returns. *)
Lemma prune_walk_completes (fuel : nat) (dest p : path) (V : list path) (f : fs) :
  nodejs = Node12 →
  wf f → fs_get f (dest ++ p) = Some NDir →
  (∀ k nd, f !! k = Some nd → inside (dest ++ p) k →
     (length k ≤ length (dest ++ p) + fuel)%nat) →
  ∃ w', __walk (S fuel) p (prune_options dest) (World f (Some V)) = (Ok tt, w').
Proof.
  intros Hrt. revert p f. induction fuel as [|fuel IH]; intros p f Hwf Hdir Hdepth;
    apply prune_level_completes; try done;
    intros x f2 Hwf2 Hsub2 Hx _;
    pose proof (lookup_weaken _ _ _ _ Hx Hsub2) as Hxf.
  - apply Hdepth in Hxf; [|rewrite app_assoc; apply inside_snoc].
    rewrite !length_app in Hxf. simpl in Hxf. lia.
  - apply IH; [done| |].
    + unfold join. rewrite fs_get_ne; [done|]. by destruct dest, p.
    + intros k nd Hk Hin. unfold join in *.
      apply (lookup_weaken _ _ _ _ Hk) in Hsub2.
      apply Hdepth in Hsub2.
      * rewrite !length_app in *. simpl. lia.
      * rewrite app_assoc in Hin. eapply inside_trans; [apply inside_snoc|apply Hin].
Qed.

(** ** The VisitedSet of the primary pass *)

Lemma prefix_snoc_inv (q l : path) (n : string) :
  q `prefix_of` l ++ [n] → q = l ++ [n] ∨ q `prefix_of` l.
Proof.
  intros [t Ht]. destruct t as [|m t _] using rev_ind.
  - left. by rewrite app_nil_r in Ht.
  - right. rewrite app_assoc in Ht. apply app_inj_tail in Ht as [-> _].
    by exists t.
Qed.

Lemma closed_nil (dest : path) : closed dest [].
Proof. intros q Hq. by apply elem_of_nil in Hq. Qed.

Lemma closed_snoc (dest p : path) (n : string) (V : list path) :
  closed dest V → p = [] ∨ dest ++ p ∈ V → closed dest (V ++ [dest ++ p ++ [n]]).
Proof.
  intros Hcl Hp q [Hq| ->%list_elem_of_singleton]%elem_of_app.
  - destruct (Hcl q Hq) as [Hin Hpre]. split; [done|].
    intros q' Hq' Hq'q. apply elem_of_app. left. by apply Hpre.
  - split; [apply inside_app; by destruct p|].
    intros q' Hq' Hpre. apply elem_of_app. rewrite app_assoc in Hpre.
    apply prefix_snoc_inv in Hpre as [->|Hpre].
    + right. rewrite <- app_assoc. by left.
    + left. destruct Hp as [->|Hp].
      * rewrite app_nil_r in Hpre. by destruct (inside_asym _ _ Hq' Hpre).
      * destruct (Hcl _ Hp) as [_ Hdown]. by apply Hdown.
Qed.

Lemma keep_closed (dest k : path) (V : list path) :
  closed dest V → keep V dest k ↔ (inside dest k → k ∈ V).
Proof.
  intros Hcl. split.
  - intros Hkeep Hk. by apply Hkeep.
  - intros Hk q Hq Hqk. destruct (Hcl k) as [_ Hdown]; [|by apply Hdown].
    apply Hk. by eapply inside_trans.
Qed.

Lemma walk_recording (fuel : nat) (src dest p : path) (v : visitor existent)
    (V : list path) (w w' : world existent) (r : res unit) :
  recording dest v →
  w_user w = Some V → closed dest V → p = [] ∨ dest ++ p ∈ V →
  __walk fuel p {| root := src; flags := AUndefined; walker := AFunction v |} w = (r, w') →
  ∃ V', w_user w' = Some V' ∧ closed dest V' ∧ ∀ q, q ∈ V → q ∈ V'.
Proof.
  intros Hrec. revert p V w r w'.
  induction fuel as [|fuel IH]; intros p V w r w' Hu Hcl Hp Hrun.
  { injection Hrun as <- <-. eauto. }
  simpl in Hrun.
  assert (∀ (r1 : res (list dirent)) w1,
            lift (readdir (join src p)) w = (r1, w1) → w1 = w) as Hsame.
  { intros r1 w1 [[Hfs _]%readdir_inv Hu1]%lift_inv.
    by rewrite (world_eta w1), Hfs, Hu1, <- world_eta. }
  apply bind_inv in Hrun as [(files & w1 & Hrd & Hloop)|[(e & Hrd & ->)|[Hrd ->]]];
    apply Hsame in Hrd as ->; [|by eauto..].
  apply (for_of_inv (λ _ w2,
    ∃ V2, w_user w2 = Some V2 ∧ closed dest V2 ∧ ∀ q, q ∈ V → q ∈ V2)) in Hloop.
  - by destruct Hloop as (_ & _ & _ & H & _).
  - eauto.
  - intros done x rest w2 r2 w3 _ (V2 & Hu2 & Hcl2 & Hsub2) Hbody.
    assert (∀ r4 w4, v (join p [name x]) x w2 = (r4, w4) →
              w_user w4 = Some (V2 ++ [dest ++ p ++ [name x]]) ∧
              closed dest (V2 ++ [dest ++ p ++ [name x]]) ∧
              (∀ q, q ∈ V → q ∈ V2 ++ [dest ++ p ++ [name x]])) as Hcall.
    { intros r4 w4 [Hu4 _]%Hrec. rewrite Hu2 in Hu4. split_and!; [done| |].
      - apply closed_snoc; [done|]. destruct Hp as [->|Hp]; [by left|right; auto].
      - intros q Hq. apply elem_of_app. left. auto. }
    assert (∀ r4 w4 (k : jsval → M existent unit),
              (∀ v1 w5 V5, w_user w5 = Some V5 → closed dest V5 →
                   dest ++ join p [name x] ∈ V5 → (∀ q, q ∈ V → q ∈ V5) →
                   k v1 w5 = (r4, w4) →
                   ∃ V4, w_user w4 = Some V4 ∧ closed dest V4 ∧ ∀ q, q ∈ V → q ∈ V4) →
              (v1 <- v (join p [name x]) x ;; k v1) w2 = (r4, w4) →
              ∃ V4, w_user w4 = Some V4 ∧ closed dest V4 ∧ ∀ q, q ∈ V → q ∈ V4) as Hvisit.
    { intros r4 w4 k Hk
        [(v1 & w5 & Hc & Hrest)|[(e & Hc & ->)|[Hc ->]]]%bind_inv;
        apply Hcall in Hc as (Hu5 & Hcl5 & Hsub5); [|by eauto..].
      eapply Hk; [done..| |done|done]. apply elem_of_app. right. by left. }
    simpl in Hbody. destruct (isDirectory x); revert Hbody; apply Hvisit.
    + intros v1 w5 V5 Hu5 Hcl5 Hin5 Hsub5.
      destruct (strict_ne_false v1); [|intros [= <- <-]; by eauto].
      intros Hsub. eapply IH in Hsub as (V' & Hu' & Hcl' & Hsub'); [|done|done|by right].
      exists V'. split_and!; [done..|]. auto.
    + intros v1 w5 V5 Hu5 Hcl5 Hin5 Hsub5 [= <- <-]. eauto.
Qed.

Lemma copy_walker_recording (src dest : path) (recursive : bool) :
  recording dest (copy_walker src dest recursive).
Proof.
  intros q d w r w'. unfold copy_walker, join.
  intros [([] & w1 & (_ & Hf1 & Hu1)%push_inv & Hrest)|[(e & (? & _)%push_inv & _)|[(? & _)%push_inv _]]]%bind_inv;
    try done.
  rewrite <- Hf1, <- Hu1. clear Hf1 Hu1.
  assert (∀ (op : fsop unit),
            (∀ r2 f', op (w_fs w1) = (r2, f') → wf (w_fs w1) → wf f') →
            (lift op ;;; ret VUndefined) w1 = (r, w') →
            w_user w' = w_user w1 ∧ (wf (w_fs w1) → wf (w_fs w'))) as Hthen.
  { intros op Hpres
      [([] & w2 & [Hrun Hu]%lift_inv & [= <- <-])|[(e & [Hrun Hu]%lift_inv & ->)|[[Hrun Hu]%lift_inv ->]]]%bind_inv;
      split; try done; by eapply Hpres. }
  destruct (isDirectory d); revert Hrest; apply Hthen; intros r2 f' Hop Hwf.
  - by eapply mkdir_wf.
  - by eapply copyFile_wf.
Qed.

Lemma __symlinkFile_user {U : Type} (src dest : path) (flags : option Z)
    (w w' : world U) (r : res unit) :
  __symlinkFile src dest flags w = (r, w') → w_user w' = w_user w.
Proof.
  unfold __symlinkFile. unfold bind at 1. simpl.
  assert (∀ w1 : world U, w_user w1 = w_user w →
            lift (symlinkFile (resolve src) dest) w1 = (r, w') →
            w_user w' = w_user w) as Hlink.
  { intros w1 Hu1 [_ Hu]%lift_inv. congruence. }
  assert (∀ w1 : world U, w_user w1 = w_user w →
            (remove dest ;;; lift (symlinkFile (resolve src) dest)) w1 = (r, w') →
            w_user w' = w_user w) as Hreplace.
  { intros w1 Hu1 [(w2 & Hu2 & _ & Hln)|(_ & -> & _)]%replace_inv; [|done].
    apply (Hlink w2); [congruence|done]. }
  destruct (_ || _); [by apply Hlink|].
  intros [(nd & w1 & [_ Hu1]%lift_inv & Hrest)|[(e & [_ Hu1]%lift_inv & ->)|[[_ Hu1]%lift_inv ->]]]%bind_inv;
    [|done..].
  destruct (isSymbolicLink nd); [|by apply (Hreplace w1)].
  apply bind_inv in Hrest as [(t & w2 & [_ Hu2]%lift_inv & Hrest)|[(e & [_ Hu2]%lift_inv & ->)|[[_ Hu2]%lift_inv ->]]];
    [|congruence..].
  destruct (negb _); [apply (Hreplace w2); [congruence|done]|].
  injection Hrest as <- <-. congruence.
Qed.

Lemma symlink_walker_recording (src dest : path) (recursive : bool) :
  recording dest (symlink_walker src dest recursive).
Proof.
  intros q d w r w'. unfold symlink_walker, join.
  intros [([] & w1 & (_ & Hf1 & Hu1)%push_inv & Hrest)|[(e & (? & _)%push_inv & _)|[(? & _)%push_inv _]]]%bind_inv;
    try done.
  rewrite <- Hf1, <- Hu1. clear Hf1 Hu1.
  assert (∀ (c : M existent unit),
            (∀ r2 w2, c w1 = (r2, w2) →
               w_user w2 = w_user w1 ∧ (wf (w_fs w1) → wf (w_fs w2))) →
            (c ;;; ret VUndefined) w1 = (r, w') →
            w_user w' = w_user w1 ∧ (wf (w_fs w1) → wf (w_fs w'))) as Hthen.
  { intros c Hpres
      [([] & w2 & Hrun & [= <- <-])|[(e & Hrun & ->)|[Hrun ->]]]%bind_inv;
      by eapply Hpres. }
  destruct (isDirectory d); revert Hrest; apply Hthen; intros r2 w2 Hrun.
  - apply lift_inv in Hrun as [Hrun Hu]. split; [done|]. intros Hwf.
    by eapply mkdir_wf.
  - split; [by eapply __symlinkFile_user|].
    intros Hwf. by eapply __symlinkFile_wf.
Qed.

(** The primary walk keeps the filesystem well formed. *)
Lemma walk_recording_wf (fuel : nat) (src dest p : path) (v : visitor existent)
    (w w' : world existent) (r : res unit) :
  recording dest v → wf (w_fs w) →
  __walk fuel p {| root := src; flags := AUndefined; walker := AFunction v |} w = (r, w') →
  wf (w_fs w').
Proof.
  intros Hrec. apply (walk_invariant (λ w, wf (w_fs w))).
  intros q d w2 r2 w3 _ Hwf Hc. simpl in Hc. apply Hrec in Hc as [_ Hpres]. auto.
Qed.

(** A mirror with pruning: the destination directory is made, the source
    is walked with a recording visitor, the destination is reconciled.
    When it completes, the reconciliation has removed from the state left
    by the primary pass exactly the entries inside [dest] that are not in
    the VisitedSet. *)
Lemma mirror_prune_exact (fuel : nat) (src dest : path) (recursive : bool)
    (v : visitor existent) (f : fs) (w1 : world existent) :
  recording dest v → wf f →
  (lift (mkdir dest recursive) ;;;
   __walk fuel [] {| root := src; flags := AUndefined; walker := AFunction v |} ;;;
   existentPaths <- get_user ;;
   if bool_decide (is_Some existentPaths) then __walk fuel [] (prune_options dest)
   else ret tt) (World f (Some [])) = (Ok tt, w1) →
  ∃ fmid V,
    (lift (mkdir dest recursive) ;;;
     __walk fuel [] {| root := src; flags := AUndefined; walker := AFunction v |})
      (World f (Some [])) = (Ok tt, World fmid (Some V)) ∧
    closed dest V ∧
    ∀ k nd, w_fs w1 !! k = Some nd ↔ fmid !! k = Some nd ∧ (inside dest k → k ∈ V).
Proof.
  intros Hrec Hwf Hrun.
  apply bind_inv in Hrun as [([] & wa & Hmk & Hrun)|[(e & _ & [=])|[_ [=]]]].
  apply bind_inv in Hrun as [([] & wb & Hwalk & Hrun)|[(e & _ & [=])|[_ [=]]]].
  pose proof Hmk as [Hmk' Hua]%lift_inv.
  apply mkdir_wf in Hmk'; [|done]. simpl in Hua.
  pose proof (walk_recording_wf _ _ _ _ _ _ _ _ Hrec Hmk' Hwalk) as Hwfb.
  pose proof Hwalk as (V & Hub & Hcl & _)%(walk_recording _ _ dest _ _ []);
    [|done..|apply closed_nil|by left].
  unfold bind at 1 in Hrun. simpl in Hrun. rewrite Hub in Hrun.
  rewrite bool_decide_eq_true_2 in Hrun by done.
  rewrite (world_eta wb), Hub in Hrun, Hwalk.
  apply prune_walk_exact in Hrun as (_ & _ & Hchar); [|done].
  exists (w_fs wb), V. split_and!; [|done|].
  - by rewrite (bind_Ok _ _ _ _ _ Hmk).
  - intros k nd. rewrite Hchar, app_nil_r. by rewrite keep_closed.
Qed.

Lemma height_bound (f : fs) (rt k : path) (nd : node) :
  f !! k = Some nd → rt `prefix_of` k → (length k ≤ length rt + height f rt)%nat.
Proof.
  intros Hk Hpre. unfold height.
  assert ((length k - length rt)%nat ∈
          (λ k, length k - length rt)%nat <$>
            filter (λ k, rt `prefix_of` k) (map_to_list f).*1) as Hin.
  { apply (list_elem_of_fmap_2 (λ k, (length k - length rt)%nat)).
    apply list_elem_of_filter. split; [done|].
    apply list_elem_of_fmap. exists (k, nd). split; [done|].
    by apply elem_of_map_to_list. }
  apply max_list_elem_of_le in Hin. apply prefix_length in Hpre. lia.
Qed.

(** Up to Node 14 the reconciliation of a mirror completes once the
    primary pass has, when the walker is given the depth of the
    destination. *)
Lemma mirror_prune_completes (fuel : nat) (src dest : path) (recursive : bool)
    (v : visitor existent) (f fmid : fs) (V : list path) :
  nodejs = Node12 → recording dest v → wf f →
  (lift (mkdir dest recursive) ;;;
   __walk (S fuel) [] {| root := src; flags := AUndefined; walker := AFunction v |})
    (World f (Some [])) = (Ok tt, World fmid (Some V)) →
  fs_get fmid dest = Some NDir →
  (height fmid dest ≤ fuel)%nat →
  ∃ w1,
    (lift (mkdir dest recursive) ;;;
     __walk (S fuel) [] {| root := src; flags := AUndefined; walker := AFunction v |} ;;;
     existentPaths <- get_user ;;
     if bool_decide (is_Some existentPaths) then __walk (S fuel) [] (prune_options dest)
     else ret tt) (World f (Some [])) = (Ok tt, w1).
Proof.
  intros Hrt Hrec Hwf Hprimary Hdir Hdepth.
  apply bind_inv in Hprimary as [([] & wa & Hmk & Hwalk)|[(e & _ & [=])|[_ [=]]]].
  pose proof Hmk as [Hmk' _]%lift_inv. apply mkdir_wf in Hmk'; [|done].
  pose proof (walk_recording_wf _ _ _ _ _ _ _ _ Hrec Hmk' Hwalk) as Hwfb.
  destruct (prune_walk_completes fuel dest [] V fmid) as [w1 Hprune]; try done.
  - by rewrite app_nil_r.
  - intros k nd Hk [Hpre _]. rewrite app_nil_r in *.
    pose proof (height_bound _ _ _ _ Hk Hpre). lia.
  - exists w1. rewrite (bind_Ok _ _ _ _ _ Hmk), (bind_Ok _ _ _ _ _ Hwalk).
    unfold bind at 1, get_user. cbn [w_user].
    by rewrite bool_decide_eq_true_2.
Qed.

(** C1: when a directory mirror ([__copy] or [__symlink]) with the
    remove-nonexistent flag completes, its primary pass has completed
    with some VisitedSet [V] in some state [fmid], and the final state is
    [fmid] without exactly the entries inside [dest] whose path is not in
    [V]: an entry is there at the end if and only if it was there after
    the primary pass and, when it lies inside [dest], its path is in [V].
    And up to Node 14 the mirror does complete whenever its primary pass
    does, given the depth of the destination, so that is what the
    reconciliation then deletes. *)
Theorem prune_removes_exactly_unrecorded {U : Type} (fuel : nat) (src dest : path)
    (flags : option Z) (f : fs) (u : U) :
  wf f →
  (truthy (Z.land (flag_bits flags) COPY_RMNONEXISTENT) = true →
   (∀ w', __copy fuel src dest flags (World f u) = (Ok tt, w') →
      ∃ fmid V,
        copy_primary fuel src dest flags (World f (Some [])) =
          (Ok tt, World fmid (Some V)) ∧
        ∀ k nd, w_fs w' !! k = Some nd ↔ fmid !! k = Some nd ∧ (inside dest k → k ∈ V)) ∧
   (nodejs = Node12 →
    ∀ fmid V,
      copy_primary fuel src dest flags (World f (Some [])) =
        (Ok tt, World fmid (Some V)) →
      fs_get fmid dest = Some NDir → (height fmid dest < fuel)%nat →
      ∃ w', __copy fuel src dest flags (World f u) = (Ok tt, w'))) ∧
  (truthy (Z.land (flag_bits flags) SYMLINK_RMNONEXISTENT) = true →
   (∀ w', __symlink fuel src dest flags (World f u) = (Ok tt, w') →
      ∃ fmid V,
        symlink_primary fuel src dest flags (World f (Some [])) =
          (Ok tt, World fmid (Some V)) ∧
        ∀ k nd, w_fs w' !! k = Some nd ↔ fmid !! k = Some nd ∧ (inside dest k → k ∈ V)) ∧
   (nodejs = Node12 →
    ∀ fmid V,
      symlink_primary fuel src dest flags (World f (Some [])) =
        (Ok tt, World fmid (Some V)) →
      fs_get fmid dest = Some NDir → (height fmid dest < fuel)%nat →
      ∃ w', __symlink fuel src dest flags (World f u) = (Ok tt, w'))).
Proof.
  intros Hwf. split; intros Hflag; split.
  - intros w' Hrun. unfold __copy in Hrun. rewrite Hflag in Hrun.
    apply with_local_inv in Hrun as (w1 & Hrun & ->).
    apply mirror_prune_exact in Hrun as (fmid & V & Hprimary & _ & Hchar);
      [|apply copy_walker_recording|done].
    by exists fmid, V.
  - intros Hrt fmid V Hprimary Hdir Hdepth.
    destruct fuel as [|n]; [lia|].
    destruct (mirror_prune_completes n src dest _ _ f fmid V Hrt
                (copy_walker_recording src dest _) Hwf Hprimary Hdir) as [w1 Hrun]; [lia|].
    exists (World (w_fs w1) u). unfold __copy, with_local. rewrite Hflag.
    cbn [w_fs w_user]. by rewrite Hrun.
  - intros w' Hrun. unfold __symlink in Hrun. rewrite Hflag in Hrun.
    apply with_local_inv in Hrun as (w1 & Hrun & ->).
    apply mirror_prune_exact in Hrun as (fmid & V & Hprimary & _ & Hchar);
      [|apply symlink_walker_recording|done].
    by exists fmid, V.
  - intros Hrt fmid V Hprimary Hdir Hdepth.
    destruct fuel as [|n]; [lia|].
    destruct (mirror_prune_completes n src dest _ _ f fmid V Hrt
                (symlink_walker_recording src dest _) Hwf Hprimary Hdir) as [w1 Hrun]; [lia|].
    exists (World (w_fs w1) u). unfold __symlink, with_local. rewrite Hflag.
    cbn [w_fs w_user]. by rewrite Hrun.
Qed.


(** ** Copying a directory with [COPY_EXCL] *)

Lemma advance_refl (P : path → Prop) (w : world existent) :
  wf (w_fs w) → advance P w w.
Proof.
  intros Hwf. split_and!; [done|apply extends_refl|].
  intros V HV. exists V. split_and!; [done..|]. intros k -> [? [=]].
Qed.

Lemma advance_trans (P Q : path → Prop) (w1 w2 w3 : world existent) :
  advance P w1 w2 → advance Q w2 w3 → advance (λ k, P k ∨ Q k) w1 w3.
Proof.
  intros (_ & Hext1 & HV1) (Hwf3 & Hext2 & HV2).
  split_and!; [done|by eapply extends_trans|].
  intros V HV. destruct (HV1 V HV) as (V2 & Hu2 & Hsub2 & Hnew2).
  destruct (HV2 V2 Hu2) as (V3 & Hu3 & Hsub3 & Hnew3).
  exists V3. split_and!; [done|auto|].
  intros k Hk1 Hk3. destruct (w_fs w2 !! k) as [nd|] eqn:Hk2; [|by apply Hnew3].
  apply Hsub3, Hnew2; [done|by rewrite Hk2].
Qed.

Lemma advance_weaken (P Q : path → Prop) (w w' : world existent) :
  (∀ k, P k → Q k) → advance P w w' → advance Q w w'.
Proof.
  intros HPQ (Hwf & Hext & HV). split_and!; [done| |done].
  by eapply extends_weaken.
Qed.

Lemma advance_sub (P : path → Prop) (w w' : world existent) :
  advance P w w' → w_fs w ⊆ w_fs w'.
Proof. by intros (_ & [Hsub _] & _). Qed.

(** The loop rule with a second invariant that is only kept while the
    iterations succeed. *)
Lemma for_of_inv_ok {U A} (I J : list A → world U → Prop)
    (l : list A) (body : A → M U unit) (w0 w' : world U) (r : res unit) :
  I [] w0 → J [] w0 →
  (∀ done x rest w r w',
     l = done ++ x :: rest → I done w → J done w → body x w = (r, w') →
     I (done ++ [x]) w' ∧ (r = Ok tt → J (done ++ [x]) w')) →
  for_of l body w0 = (r, w') →
  (∃ done rest, l = done ++ rest ∧ I done w') ∧ (r = Ok tt → I l w' ∧ J l w').
Proof.
  revert I J w0. induction l as [|x l IH]; intros I J w0 HI HJ Hstep Hrun.
  - simpl in Hrun. injection Hrun as <- <-. split; [by exists [], []|done].
  - simpl in Hrun.
    apply bind_inv in Hrun as [([] & w1 & Hx & Hrest)|[(e & Hx & ->)|[Hx ->]]].
    + destruct (Hstep [] x l w0 (Ok tt) w1 eq_refl HI HJ Hx) as [HI1 HJ1].
      destruct (IH (λ done, I (x :: done)) (λ done, J (x :: done)) w1)
        as [(dn & rest & -> & HId) Hok]; [done|by apply HJ1| |done|].
      * intros dn y rest w r0 w2 -> HId HJd Hy.
        by apply (Hstep (x :: dn) y rest w r0 w2).
      * split; [by exists (x :: dn), rest|done].
    + destruct (Hstep [] x l w0 (Fail e) w' eq_refl HI HJ Hx) as [HI1 _].
      split; [by exists [x], l|done].
    + destruct (Hstep [] x l w0 Pending w' eq_refl HI HJ Hx) as [HI1 _].
      split; [by exists [x], l|done].
Qed.

Lemma stat_file (s : path) (f : fs) (data : string) :
  fs_get f s = Some (NFile data) → stat s f = (Ok (NFile data), f).
Proof. intros Hs. unfold stat. destruct MAXSYMLINKS; simpl; by rewrite Hs. Qed.

(** One call of the copy visitor in exclusive mode, for a destination path
    that is free. *)
Lemma copy_walker_fresh (src dest q : path) (d : dirent)
    (w w' : world existent) (r : res jsval) :
  wf (w_fs w) → fs_get (w_fs w) (dest ++ q) = None →
  copy_walker src dest false q d w = (r, w') →
  advance (λ k, k = dest ++ q) w w' ∧
  ∀ v1, r = Ok v1 →
    v1 = VUndefined ∧
    (isDirectory d = false →
     ∃ data, (stat (src ++ q) (w_fs w)).1 = Ok (NFile data) ∧
             w_fs w' !! (dest ++ q) = Some (NFile data)).
Proof.
  intros Hwf Hfree Hrun.
  pose proof (copy_walker_recording src dest false q d w r w' Hrun) as [Hu _].
  revert Hrun. unfold copy_walker, join.
  intros [([] & w1 & (_ & Hf1 & _)%push_inv & Hrest)|[(e & (? & _)%push_inv & _)|[(? & _)%push_inv _]]]%bind_inv;
    try done.
  rewrite <- Hf1 in Hwf, Hfree |- *.
  assert (∀ (op : fsop unit),
            (∀ r2 f', op (w_fs w1) = (r2, f') →
               (r2 = Ok tt ∧ ∃ nd, f' = <[dest ++ q := nd]> (w_fs w1)) ∨
               (r2 ≠ Ok tt ∧ f' = w_fs w1)) →
            (∀ r2 f', op (w_fs w1) = (r2, f') → wf f') →
            (lift op ;;; ret VUndefined) w1 = (r, w') →
            wf (w_fs w') ∧ extends (λ k, k = dest ++ q) (w_fs w1) (w_fs w') ∧
            ∀ v1, r = Ok v1 → v1 = VUndefined ∧ op (w_fs w1) = (Ok tt, w_fs w')) as Hthen.
  { intros op Hcases Hpres
      [([] & w2 & [Hrun _]%lift_inv & [= <- <-])|[(e & [Hrun _]%lift_inv & ->)|[[Hrun _]%lift_inv ->]]]%bind_inv;
      (split_and!; [by eapply Hpres| |]);
      try (by intros v1 [=]); try (by intros v1 [= <-]);
      destruct (Hcases _ _ Hrun) as [(Heq & nd & ->)|[Hne ->]];
      try done; try apply extends_refl.
    apply extends_insert; [by eapply fs_get_None_ne|done]. }
  assert (wf (w_fs w') ∧ extends (λ k, k = dest ++ q) (w_fs w1) (w_fs w') →
          advance (λ k, k = dest ++ q) w w') as Hadv.
  { intros [Hwf' Hext]. unfold advance. rewrite <- Hf1. split_and!; [done..|].
    intros V HV. rewrite HV in Hu. exists (V ++ [dest ++ q]).
    split_and!; [done|intros k Hk; apply elem_of_app; by left|].
    intros k Hk Hk'. destruct Hext as [_ Hnew].
    rewrite (Hnew k Hk Hk'). apply elem_of_app. right. by left. }
  destruct (isDirectory d); apply Hthen in Hrest as (Hwf' & Hext & Hok).
  - split; [by apply Hadv|]. intros v1 Hv1. by destruct (Hok v1 Hv1) as [-> _].
  - intros r2 f' [(-> & -> & _)|[? ->]]%mkdir_fresh_inv; eauto.
  - intros r2 f'. by apply mkdir_wf.
  - split; [by apply Hadv|]. intros v1 Hv1. destruct (Hok v1 Hv1) as [-> Hcp].
    split; [done|]. intros _.
    apply copyFile_fresh_inv in Hcp as [(_ & data & Hst & Hf')|[? _]]; [|done..].
    exists data. split; [done|]. rewrite Hf'. apply lookup_insert_eq.
  - intros r2 f' [(-> & data & _ & ->)|[? ->]]%copyFile_fresh_inv; eauto.
  - intros r2 f'. by apply copyFile_wf.
Qed.

(** Walking [src/p] in exclusive mode into a destination directory
    [dest/p] that is empty only adds entries inside it, all of them
    recorded; and when the walk completes, every file below [src/p] has
    its copy at the mirrored path. *)
Lemma copy_excl_walk (fuel : nat) (src dest p : path)
    (w w' : world existent) (r : res unit) :
  wf (w_fs w) →
  (∀ k, inside (dest ++ p) k → w_fs w !! k = None) →
  __walk fuel p (copy_options src dest false) w = (r, w') →
  advance (inside (dest ++ p)) w w' ∧
  (r = Ok tt → ∀ q data, q ≠ [] →
     w_fs w !! (src ++ p ++ q) = Some (NFile data) →
     w_fs w' !! (dest ++ p ++ q) = Some (NFile data)).
Proof.
  revert p w r w'. induction fuel as [|fuel IH]; intros p w r w' Hwf Hempty Hrun.
  { injection Hrun as <- <-. split; [by apply advance_refl|done]. }
  simpl in Hrun.
  assert (∀ (r1 : res (list dirent)) w1,
            lift (readdir (join src p)) w = (r1, w1) → w1 = w) as Hsame.
  { intros r1 w1 [[Hfs _]%readdir_inv Hu]%lift_inv.
    by rewrite (world_eta w1), Hfs, Hu, <- world_eta. }
  apply bind_inv in Hrun as [(files & w1 & Hrd & Hloop)|[(e & Hrd & ->)|[Hrd ->]]];
    pose proof (Hsame _ _ Hrd) as ->; [|split; [by apply advance_refl|done]..].
  apply lift_inv in Hrd as [[_ Hfiles]%readdir_inv _].
  destruct (Hfiles files eq_refl) as [-> _]. clear Hfiles Hsame.
  apply (for_of_inv_ok
    (λ dn w2,
       advance (λ k, ∃ y, y ∈ dn ∧ (dest ++ p) ++ [name y] `prefix_of` k) w w2)
    (λ dn w2,
       ∀ y, y ∈ dn → ∀ q data,
         w_fs w !! (src ++ (p ++ [name y]) ++ q) = Some (NFile data) →
         w_fs w2 !! (dest ++ (p ++ [name y]) ++ q) = Some (NFile data)))
    in Hloop.
  - destruct Hloop as [(dn & rest & _ & Hadv) Hok]. split.
    + revert Hadv. apply advance_weaken. intros k (y & _ & Hy).
      eapply inside_trans; [apply inside_snoc|done].
    + intros -> q data Hq Hk. destruct (Hok eq_refl) as [_ HJ].
      destruct q as [|n q]; [done|].
      assert (src ++ p ++ n :: q = (src ++ p) ++ [n] ++ q) as Hkey
        by (by rewrite <- app_assoc).
      assert ((src ++ p) ++ [n] `prefix_of` src ++ p ++ n :: q) as Hpre
        by (rewrite Hkey, app_assoc; by apply prefix_app_r).
      destruct (wf_prefix _ _ _ _ Hwf Hpre Hk) as [nd0 Hn].
      rewrite fs_get_snoc in Hn.
      replace (p ++ n :: q) with ((p ++ [n]) ++ q) in Hk |- *
        by (by rewrite <- app_assoc).
      apply (HJ (Dirent n (kind_of nd0))); [|done].
      apply elem_of_listing. by exists nd0.
  - apply advance_weaken with (P := λ _, False); [done|by apply advance_refl].
  - intros y Hy. by apply elem_of_nil in Hy.
  - intros dn x rest w2 r2 w3 Hsplit Hadv2 HJ2 Hbody.
    assert (x ∈ listing (w_fs w) (join src p)) as Hx by (rewrite Hsplit; in_app).
    apply elem_of_listing in Hx as (nd0 & Hsrc & Hkind). unfold join in Hsrc.
    apply NoDup_listing_split in Hsplit.
    pose proof Hadv2 as (Hwf2 & Hext2 & _).
    remember (dest ++ join p [name x]) as c eqn:Hcdef.
    assert (c = (dest ++ p) ++ [name x]) as Hc
      by (rewrite Hcdef; unfold join; by rewrite app_assoc).
    assert (∀ k, c `prefix_of` k → w_fs w2 !! k = None) as Hfree.
    { intros k Hk. destruct (w_fs w2 !! k) as [nd|] eqn:Hk2; [|done].
      destruct Hext2 as [_ Hnew]. destruct (Hnew k) as (y & Hy & Hpre).
      - apply Hempty. eapply inside_trans; [apply inside_snoc|]. by rewrite <- Hc.
      - by rewrite Hk2.
      - destruct Hsplit. rewrite Hc in Hk.
        rewrite <- (prefix_sibling (dest ++ p) (name y) (name x)
                     ((dest ++ p) ++ [name y]) k); [|done..].
        by apply list_elem_of_fmap_2. }
    assert (∀ k, (k = c ∨ inside c k) →
                 ∃ y, y ∈ dn ++ [x] ∧ (dest ++ p) ++ [name y] `prefix_of` k) as Hmine.
    { intros k Hk. exists x. split; [in_app|].
      rewrite <- Hc. by destruct Hk as [->|[? _]]. }
    assert (∀ k, (∃ y, y ∈ dn ∧ (dest ++ p) ++ [name y] `prefix_of` k) →
                 ∃ y, y ∈ dn ++ [x] ∧ (dest ++ p) ++ [name y] `prefix_of` k) as Hold.
    { intros k (y & Hy & Hpre). exists y. split; [in_app|done]. }
    (* the visitor call *)
    assert (∀ r4 w4, copy_walker src dest false (join p [name x]) x w2 = (r4, w4) →
              advance (λ k, k = c) w2 w4 ∧
              (∀ k, inside c k → w_fs w4 !! k = None) ∧
              ∀ v1, r4 = Ok v1 →
                v1 = VUndefined ∧
                (isDirectory x = false →
                 ∃ data, (stat (src ++ join p [name x]) (w_fs w2)).1 = Ok (NFile data) ∧
                         w_fs w4 !! c = Some (NFile data))) as Hcall.
    { intros r4 w4 Hcw. apply copy_walker_fresh in Hcw as [Hadv4 Hok4]; [|done|].
      - rewrite <- Hcdef in Hadv4, Hok4. split_and!; [done| |done].
        intros k Hk. destruct (w_fs w4 !! k) as [nd|] eqn:Hk4; [|done].
        destruct Hadv4 as (_ & [_ Hnew] & _). rewrite (Hnew k) in Hk.
        + by apply inside_irrefl in Hk.
        + apply Hfree. by destruct Hk.
        + by rewrite Hk4.
      - destruct (w_fs w2 !! c) eqn:Hcc; [by rewrite Hfree in Hcc|].
        rewrite <- Hcdef, fs_get_ne; [done|]. rewrite Hc. by destruct (dest ++ p). }
    (* what was copied for the entries done before stays *)
    assert (∀ w4 : world existent, w_fs w2 ⊆ w_fs w4 →
              ∀ (y : dirent), y ∈ dn → ∀ (q : path) (data : string),
                w_fs w !! (src ++ (p ++ [name y]) ++ q) = Some (NFile data) →
                w_fs w4 !! (dest ++ (p ++ [name y]) ++ q) = Some (NFile data)) as Hkeep.
    { intros w4 Hsub y Hy q data Hk. eapply lookup_weaken; [by eapply HJ2|done]. }
    move Hbody at bottom.
    destruct (isDirectory x) eqn:Hisdir.
    + unfold isDirectory in Hisdir. apply bool_decide_eq_true in Hisdir.
      assert (nd0 = NDir) as -> by (destruct nd0; simpl in *; congruence).
      apply bind_inv in Hbody as [(v1 & w4 & Hcw & Hrest)|[(e & Hcw & ->)|[Hcw ->]]];
        apply Hcall in Hcw as (Hadv4 & Hempty4 & Hok4);
        [|split; [|done];
          eapply advance_weaken; [|by eapply advance_trans];
          intros k [?| ->]; [by apply Hold|apply Hmine; by left]..].
      destruct (Hok4 v1 eq_refl) as [-> _]. simpl in Hrest.
      pose proof Hadv4 as (Hwf4 & _ & _).
      apply IH in Hrest as [Hadv3 Hcopied]; [|done|by rewrite <- Hcdef].
      rewrite <- Hcdef in Hadv3. split.
      * eapply advance_weaken; [|eapply advance_trans; [|apply Hadv3]].
        2:{ by eapply advance_trans. }
        intros k [[?| ->]|?]; [by apply Hold|apply Hmine; by left|apply Hmine; by right].
      * intros -> y [Hy| ->%list_elem_of_singleton]%elem_of_app q data Hk.
        -- eapply Hkeep; [|done..]. etrans; by eapply advance_sub.
        -- destruct q as [|m q].
           { rewrite app_nil_r, app_assoc, Hsrc in Hk. done. }
           unfold join in Hcopied. apply Hcopied; [done..|].
           eapply lookup_weaken; [done|]. etrans; by eapply advance_sub.
    + apply bind_inv in Hbody as [(v1 & w4 & Hcw & Hrest)|[(e & Hcw & ->)|[Hcw ->]]];
        apply Hcall in Hcw as (Hadv4 & Hempty4 & Hok4);
        [injection Hrest as <- <-|..];
        (split;
         [eapply advance_weaken; [|by eapply advance_trans];
          intros k [?| ->]; [by apply Hold|apply Hmine; by left]|]); try done.
      intros _ y [Hy| ->%list_elem_of_singleton]%elem_of_app q data Hk.
      * eapply Hkeep; [by eapply advance_sub|done..].
      * destruct (Hok4 v1 eq_refl) as [_ Hfile].
        destruct (Hfile eq_refl) as (data' & Hst & Hcopy).
        destruct q as [|m q].
        -- rewrite app_nil_r in Hk |- *. rewrite app_assoc, Hsrc in Hk.
           injection Hk as ->.
           rewrite (stat_file _ _ data) in Hst.
           ++ simpl in Hst. injection Hst as <-. rewrite Hcdef in Hcopy. exact Hcopy.
           ++ unfold join. rewrite app_assoc, fs_get_snoc.
              eapply lookup_weaken; [done|by eapply advance_sub].
        -- assert (inside ((src ++ p) ++ [name x]) (src ++ (p ++ [name x]) ++ m :: q)) as Hin.
           { rewrite !app_assoc. apply inside_app. done. }
           pose proof (wf_inside _ _ _ _ Hwf Hin Hk) as Hdir.
           rewrite fs_get_snoc, Hsrc in Hdir. injection Hdir as ->.
           unfold isDirectory in Hisdir. apply bool_decide_eq_false in Hisdir.
           by destruct Hisdir.
Qed.

(** C3: a directory-mode [copy] with [COPY_EXCL] duplicates each file of
    the source to the mirrored path and never overwrites: whatever the
    outcome, every entry that existed before is still there, unchanged
    (the destination directory has to be new, so every file is copied to a
    path that is free); and when the copy completes, every file below
    [src] has its copy, with the same content, at the mirrored path below
    [dest]. *)
Theorem copy_directory_exclusive_keeps_existing {U : Type} (fuel : nat)
    (src dest : path) (flags : option Z) (f : fs) (u : U)
    (r : res unit) (w' : world U) :
  wf f →
  (stat src f).1 = Ok NDir →
  truthy (Z.land (flag_bits flags) COPY_EXCL) = true →
  copy fuel src dest flags (World f u) = (r, w') →
  f ⊆ w_fs w' ∧
  (r = Ok tt → ∀ q data, q ≠ [] →
     f !! (src ++ q) = Some (NFile data) →
     w_fs w' !! (dest ++ q) = Some (NFile data)).
Proof.
  intros Hwf Hstat Hexcl Hrun. unfold copy in Hrun.
  destruct (stat src f) as [rs f0] eqn:Hst. simpl in Hstat. subst rs.
  pose proof (stat_inv _ _ _ _ Hst) as ->.
  rewrite (bind_Ok _ _ _ (World f u) NDir) in Hrun by (by apply lift_eq).
  simpl in Hrun. unfold __copy in Hrun. rewrite Hexcl in Hrun. simpl in Hrun.
  apply with_local_inv in Hrun as (w1 & Hrun & ->). simpl in *.
  apply bind_inv in Hrun as [([] & wa & Hmk & Hrun)|[(e & Hmk & ->)|[Hmk ->]]];
    apply lift_inv in Hmk as [Hmk Hua]; cbn [w_fs w_user] in Hmk, Hua;
    pose proof (mkdir_wf _ _ _ _ _ Hwf Hmk) as Hwfa;
    apply mkdir_fresh_inv in Hmk as [(Hok & Hfa & Hfree)|[Hne Hfa]];
    try done; try (by rewrite Hfa).
  assert (∀ k, inside dest k → f !! k = None) as Hempty.
  { intros k Hk. apply (wf_no_child f dest); [done|by rewrite Hfree|done]. }
  assert (f ⊆ w_fs wa) as Hsub_a.
  { rewrite Hfa. apply insert_subseteq.
    rewrite <- fs_get_ne; [done|by eapply fs_get_None_ne]. }
  assert (∀ k, inside (dest ++ []) k → w_fs wa !! k = None) as Hempty_a.
  { rewrite app_nil_r. intros k Hk. rewrite Hfa, lookup_insert_ne; [by apply Hempty|].
    intros ->. by apply inside_irrefl in Hk. }
  assert (∀ r2 wb,
            __walk fuel [] (copy_options src dest false) wa = (r2, wb) →
            (w_user wa = None → w_user wb = None)) as Hnone.
  { intros r2 wb Hwalk Hu. revert Hu Hwalk.
    apply (walk_invariant (λ w, w_user w = None)).
    intros q d w2 r3 w3 _ Hu2 Hc. simpl in Hc.
    apply copy_walker_recording in Hc as [-> _]. by rewrite Hu2. }
  apply bind_inv in Hrun as [([] & wb & Hwalk & Hrun)|[(e & Hwalk & ->)|[Hwalk ->]]];
    pose proof (Hnone _ _ Hwalk) as Hnone_b;
    apply copy_excl_walk in Hwalk as [Hadv Hcopied]; try done;
    pose proof Hadv as (Hwfb & [Hsub_b Hnew_b] & Hrec);
    [|split; [by etrans|done]..].
  assert (∀ q data, q ≠ [] → f !! (src ++ q) = Some (NFile data) →
                    w_fs wb !! (dest ++ q) = Some (NFile data)) as Hcopied_b.
  { intros q data Hq Hk. apply (Hcopied eq_refl q data Hq). by eapply lookup_weaken. }
  unfold bind at 1 in Hrun. simpl in Hrun.
  case_bool_decide as Hsome; [|injection Hrun as <- <-; split; [by etrans|by auto]].
  split.
  - apply map_subseteq_spec. intros k nd Hk.
    rewrite (prune_walk_outside _ _ _ _ _ _ Hrun).
    + eapply lookup_weaken; [done|by etrans].
    + intros Hin. by rewrite (Hempty k Hin) in Hk.
  - intros -> q data Hq Hk.
    destruct (w_user wa) as [V|] eqn:HV; [|destruct Hsome as [? Hs]; by rewrite Hnone_b in Hs].
    destruct (Hrec V eq_refl) as (V' & HV' & _ & Hnew_V).
    rewrite (world_eta wb), HV' in Hrun.
    apply prune_walk_exact in Hrun as (_ & _ & Hchar); [|done].
    apply Hchar. split; [by apply Hcopied_b|].
    intros q' Hq' Hpre. rewrite app_nil_r in Hq'. apply Hnew_V.
    + apply Hempty_a. by rewrite app_nil_r.
    + pose proof (wf_prefix _ _ _ _ Hwfb Hpre (Hcopied_b q data Hq Hk)) as Hsm.
      rewrite fs_get_ne in Hsm; [done|].
      intros ->. destruct Hq' as [Hd _]. apply prefix_nil_inv in Hd.
      apply fs_get_None_ne in Hfree. done.
Qed.



(** ** The reconciliation enters the directories it keeps *)

Lemma keep_outside (V : list path) (base k : path) :
  ¬ base `prefix_of` k → keep V base k.
Proof. intros Hk q [Hq _] Hqk. destruct Hk. by etrans. Qed.

Lemma lookup_iff_eq (f1 f2 : fs) (k : path) :
  (∀ nd, f1 !! k = Some nd ↔ f2 !! k = Some nd) → f1 !! k = f2 !! k.
Proof.
  intros H. destruct (f1 !! k) as [nd|] eqn:H1.
  - symmetry. by apply H.
  - destruct (f2 !! k) as [nd|] eqn:H2; [|done]. by apply (H nd).
Qed.

(** One call of the observed reconciliation visitor. *)
Lemma observed_prune_call (dest c : path) (x : dirent) (V : list path)
    (w w' : world (list entry * existent)) (v1 : jsval) :
  (w_user w).2 = Some V →
  logged (prune_walker dest) c x w = (Ok v1, w') →
  (w_user w').2 = Some V ∧
  ((dest ++ c ∈ V ∧ v1 = VUndefined ∧ w_fs w' = w_fs w) ∨
   (¬ dest ++ c ∈ V ∧ v1 = VBool false ∧ w_fs w' = remove_tree (dest ++ c) (w_fs w))) ∧
  trace w' = trace w ++ [(c, x, Ok v1)].
Proof.
  intros Hu Hcall. pose proof (logged_inv _ _ _ _ _ _ Hcall) as Htr.
  apply logged_erase in Hcall. unfold erase in Hcall. rewrite Hu in Hcall.
  rewrite prune_walker_run in Hcall. case_decide as Hin.
  - injection Hcall as <- Hf Hu'. split_and!; [done| |done]. left. by split_and!.
  - destruct (rmdir_recursive nodejs (dest ++ c) (w_fs w)) as [r1 f1] eqn:Hrm.
    apply rmdir_recursive_inv in Hrm as [[-> ->]|(_ & _ & error & ->)]; [|done].
    injection Hcall as <- Hf Hu'. split_and!; [done| |done]. right. by split_and!.
Qed.

Lemma observed_prune_descends (fuel : nat) (dest p : path) (V : list path)
    (w w' : world (list entry * existent)) :
  wf (w_fs w) → (w_user w).2 = Some V →
  __walk fuel p (observed_prune dest) w = (Ok tt, w') →
  ∃ L, trace w' = trace w ++ L ∧ below p L ∧
       (∀ n nd, w_fs w !! (dest ++ p ++ [n]) = Some nd →
          ∃ b, b ∈ L ∧ e_path b = p ++ [n]) ∧
       (∀ a, a ∈ L → isDirectory (e_dirent a) = true → dest ++ e_path a ∈ V →
          ∀ n nd, w_fs w !! (dest ++ e_path a ++ [n]) = Some nd →
            ∃ b, b ∈ L ∧ e_path b = e_path a ++ [n]).
Proof.
  revert p w w'. induction fuel as [|fuel IH]; intros p w w' Hwf HV Hrun; [done|].
  simpl in Hrun.
  apply bind_inv in Hrun as [(files & w1 & Hrd & Hloop)|[(e & _ & [=])|[_ [=]]]].
  apply lift_inv in Hrd as [[Hfs Hfiles]%readdir_inv Hu].
  destruct (Hfiles files eq_refl) as [-> _]. clear Hfiles.
  change (join dest p) with (dest ++ p) in Hloop.
  set (f := w_fs w) in *. set (base := dest ++ p) in *.
  apply (for_of_Ok (λ done w2,
    (w_user w2).2 = Some V ∧ wf (w_fs w2) ∧
    (∀ k, (∀ y, y ∈ done → ¬ base ++ [name y] `prefix_of` k) → w_fs w2 !! k = f !! k) ∧
    ∃ L, trace w2 = trace w ++ L ∧ below p L ∧
         (∀ x, x ∈ done → ∃ b, b ∈ L ∧ e_path b = p ++ [name x]) ∧
         (∀ a, a ∈ L → isDirectory (e_dirent a) = true → dest ++ e_path a ∈ V →
            ∀ n nd, f !! (dest ++ e_path a ++ [n]) = Some nd →
              ∃ b, b ∈ L ∧ e_path b = e_path a ++ [n]))) in Hloop.
  - destruct Hloop as (_ & _ & _ & L & HL & Hbelow & Hcov & Hdesc).
    exists L. split_and!; [done..| |done].
    intros n nd Hn. apply (Hcov (Dirent n (kind_of nd))).
    apply elem_of_listing. exists nd. unfold base. by rewrite <- app_assoc.
  - split_and!; [by rewrite Hu|by rewrite Hfs|by rewrite Hfs|].
    exists []. rewrite app_nil_r. unfold trace. rewrite Hu.
    split_and!; [done|by intros ? ?%elem_of_nil|by intros ? ?%elem_of_nil|
                 by intros ? ?%elem_of_nil].
  - intros dn x rest w2 w3 Hsplit (Hu2 & Hwf2 & Hframe & L & HL & Hbelow & Hcov & Hdesc) Hbody.
    assert (x ∈ listing f base) as Hx by (rewrite Hsplit; in_app).
    apply elem_of_listing in Hx as (nd0 & Hc & Hkind).
    apply NoDup_listing_split in Hsplit.
    set (c := join p [name x]) in *.
    assert (dest ++ c = base ++ [name x]) as Hjoin
      by (unfold base, c, join; by rewrite app_assoc).
    (* below the entry nothing has been touched yet *)
    assert (∀ k, base ++ [name x] `prefix_of` k → w_fs w2 !! k = f !! k) as Hunder.
    { intros k Hk. apply Hframe. intros y Hy Hpre. destruct Hsplit.
      rewrite <- (prefix_sibling base (name y) (name x) (base ++ [name y]) k);
        [by apply list_elem_of_fmap_2|done..]. }
    (* the state, the log and what the log says after the entry *)
    assert ((w_user w3).2 = Some V ∧ wf (w_fs w3) ∧
            (∀ k, ¬ base ++ [name x] `prefix_of` k → w_fs w3 !! k = w_fs w2 !! k) ∧
            ∃ L', trace w3 = trace w2 ++ L' ∧ below p L' ∧
                  (∃ b, b ∈ L' ∧ e_path b = c) ∧
                  (∀ a, a ∈ L' → isDirectory (e_dirent a) = true → dest ++ e_path a ∈ V →
                     ∀ n nd, f !! (dest ++ e_path a ++ [n]) = Some nd →
                       ∃ b, b ∈ L' ∧ e_path b = e_path a ++ [n]))
      as (Hu3 & Hwf3 & Hframe3 & L' & HL' & Hbelow' & Hcov' & Hdesc').
    { assert (∀ v1 w4, logged (prune_walker dest) c x w2 = (Ok v1, w4) →
                v1 = VBool false ∨ ¬ isDirectory x = true →
                (w_user w4).2 = Some V ∧ wf (w_fs w4) ∧
                (∀ k, ¬ base ++ [name x] `prefix_of` k → w_fs w4 !! k = w_fs w2 !! k) ∧
                ∃ L', trace w4 = trace w2 ++ L' ∧ below p L' ∧
                      (∃ b, b ∈ L' ∧ e_path b = c) ∧
                      (∀ a, a ∈ L' → isDirectory (e_dirent a) = true →
                         dest ++ e_path a ∈ V →
                         ∀ n nd, f !! (dest ++ e_path a ++ [n]) = Some nd →
                           ∃ b, b ∈ L' ∧ e_path b = e_path a ++ [n])) as Hleaf.
      { intros v1 w4 Hcall Hwhy.
        apply (observed_prune_call _ _ _ V) in Hcall as (Hu4 & Hst & Htr); [|done].
        split_and!; [done| | |].
        - destruct Hst as [(_ & _ & ->)|(_ & _ & ->)]; [done|by apply remove_tree_wf].
        - intros k Hk. destruct Hst as [(_ & _ & ->)|(_ & _ & ->)]; [done|].
          by rewrite remove_tree_lookup, Hjoin, decide_False.
        - exists [(c, x, Ok v1)]. split_and!; [done| | |].
          + intros e ->%list_elem_of_singleton. apply inside_snoc.
          + eexists. split; [by left|done].
          + intros a ->%list_elem_of_singleton Hd Hin. exfalso.
            destruct Hst as [(_ & -> & _)|(Hout & _ & _)]; [|done].
            by destruct Hwhy. }
      destruct (isDirectory x) eqn:Hisdir.
      - apply bind_inv in Hbody as [(v1 & w4 & Hcall & Hrest)|[(e & _ & [=])|[_ [=]]]].
        simpl in Hcall.
        destruct (strict_ne_false v1) eqn:Hv1.
        + pose proof Hcall as (Hu4 & Hst & Htr)%(observed_prune_call _ _ _ V); [|done].
          destruct Hst as [(Hin & -> & Hf4)|(_ & -> & _)]; [|done].
          pose proof Hrest as (L1 & HL1 & Hbelow1 & Hcov1 & Hdesc1)%IH;
            [|by rewrite Hf4|done].
          apply (walk_logged_erase _ _ _ _ AUndefined AUndefined) in Hrest; [|done].
          unfold erase in Hrest at 1. rewrite Hu4, Hf4 in Hrest.
          apply prune_walk_exact in Hrest as (Hu3 & Hwf3 & Hchar3); [|done].
          simpl in Hu3, Hwf3, Hchar3. rewrite Hf4 in Hcov1, Hdesc1.
          assert (∀ a, a ∈ L1 → base ++ [name x] `prefix_of` dest ++ e_path a) as Hin1.
          { intros a Ha. rewrite <- Hjoin. apply prefix_app. by destruct (Hbelow1 a Ha). }
          split_and!; [done..| |].
          * intros k Hk. apply lookup_iff_eq. intros nd. rewrite Hchar3.
            split; [by intros [? _]|]. intros Hk2. split; [done|].
            apply keep_outside. by rewrite Hjoin.
          * exists ((c, x, Ok VUndefined) :: L1). split_and!.
            -- by rewrite HL1, Htr, <- app_assoc.
            -- intros e [->|He]%elem_of_cons; [apply inside_snoc|].
               eapply inside_trans; [apply inside_snoc|]. by destruct (Hbelow1 e He).
            -- eexists. split; [by left|done].
            -- intros a [->|Ha]%elem_of_cons Hd Hav n nd Hn.
               ++ destruct (Hcov1 n nd) as (b & Hb & Hp).
                  { rewrite Hunder; [done|]. simpl. rewrite <- Hjoin.
                    rewrite app_assoc. by apply prefix_app_r. }
                  exists b. split; [by right|done].
               ++ destruct (Hdesc1 a Ha Hd Hav n nd) as (b & Hb & Hp).
                  { rewrite Hunder; [done|]. rewrite app_assoc.
                    etrans; [apply (Hin1 a Ha)|]. by apply prefix_app_r. }
                  exists b. split; [by right|done].
        + injection Hrest as <-. apply (Hleaf v1); [done|left].
          unfold strict_ne_false in Hv1.
          by apply negb_false_iff, bool_decide_eq_true in Hv1.
      - apply bind_inv in Hbody as [(v1 & w4 & Hcall & Hrest)|[(e & _ & [=])|[_ [=]]]].
        injection Hrest as <-. apply (Hleaf v1); [done|by right]. }
    split_and!; [done..| |].
    + intros k Hk. rewrite Hframe3.
      * apply Hframe. intros y Hy. apply Hk. in_app.
      * apply Hk. in_app.
    + exists (L ++ L'). split_and!.
      * by rewrite HL', HL, <- app_assoc.
      * intros e [?|?]%elem_of_app; auto.
      * intros y [Hy| ->%list_elem_of_singleton]%elem_of_app.
        -- destruct (Hcov y Hy) as (b & Hb & Hp). exists b. split; [|done]. in_app.
        -- destruct Hcov' as (b & Hb & Hp). exists b. split; [|done].
           apply elem_of_app. by right.
      * intros a [Ha|Ha]%elem_of_app Hd Hav n nd Hn.
        -- destruct (Hdesc a Ha Hd Hav n nd Hn) as (b & Hb & Hp).
           exists b. split; [|done]. apply elem_of_app. by left.
        -- destruct (Hdesc' a Ha Hd Hav n nd Hn) as (b & Hb & Hp).
           exists b. split; [|done]. apply elem_of_app. by right.
Qed.

(** C4, amended: the reconciliation pass walks the destination in
    pre-order (it passes no flags).  Its calls are those of the logged walk:
    no entry is visited before a directory containing it; for a path that
    is not in the VisitedSet the entry and all below it are deleted, the
    visitor returns [false] and nothing inside the entry is visited (since
    Node 16 the removal of what is not a directory is rejected instead, and
    the call with it); for a recorded path the visitor returns [undefined],
    and when the walk completes it has gone on into every recorded
    directory: every entry of the destination, and of each recorded
    directory that was visited, has been visited. *)
Theorem reconcile_is_preorder (fuel : nat) (dest : path) (f : fs) (V : list path)
    (r : res unit) (w' : world (list entry * existent)) :
  __walk fuel [] (observed_prune dest) (World f ([], Some V)) = (r, w') →
  __walk fuel [] (prune_options dest) (World f (Some V)) = (r, erase w') ∧
  truthy (Z.land (arg_bits (flags (prune_options dest))) WALK_FILEFIRST) = false ∧
  preorder (trace w') ∧
  pruned (trace w') ∧
  (∀ e, e ∈ trace w' → verdict dest V (w_fs w') e) ∧
  (wf f → r = Ok tt → entered dest V f (trace w')).
Proof.
  intros Hrun. split_and!.
  - by apply (walk_logged_erase _ _ _ _ AUndefined AUndefined) in Hrun.
  - done.
  - apply walk_pre_trace in Hrun as (L & HL & _ & _ & Hpo); [|done].
    by rewrite HL.
  - apply walk_pre_trace in Hrun as (L & HL & _ & Hpr & _); [|done].
    by rewrite HL.
  - apply (observed_prune_verdicts _ _ _ V) in Hrun as [_ Hver]; [done..|].
    intros e He. by apply elem_of_nil in He.
  - intros Hwf ->.
    apply (observed_prune_descends _ _ _ V) in Hrun as (L & HL & _ & Hcov & Hdesc);
      [|done..].
    unfold trace in HL. simpl in HL. unfold trace. rewrite HL. by split.
Qed.

End runtime.

(** * Runs on the two runtimes *)

(** C8, as the specification has it, fails since Node 16: there is a path
    where nothing is on which [remove] rejects. *)
Lemma remove_absent_may_reject :
  ¬ ∀ (nodejs : runtime) (p : path) (w : world unit),
      fs_get (w_fs w) p = None → (remove nodejs p w).1 = Ok tt.
Proof.
  intros H.
  specialize (H Node16 ["walk"; "nothing"; "here"] (World example_tree tt) eq_refl).
  by vm_compute in H.
Qed.

Lemma remove_absent_by_runtime_witness :
  remove Node12 ["walk"; "nothing"; "here"] (World example_tree tt) =
    (Ok tt, World example_tree tt) ∧
  remove Node16 ["walk"; "nothing"; "here"] (World example_tree tt) =
    (Fail ENOENT, World example_tree tt).
Proof.
  assert (wf example_tree) as Hwf by (apply wfb_wf; by vm_compute).
  split.
  - by apply (remove_absent_by_runtime Node12 ["walk"; "nothing"; "here"]
                (World example_tree tt)).
  - by apply (remove_absent_by_runtime Node16 ["walk"; "nothing"; "here"]
                (World example_tree tt)).
Defined.

Lemma symlink_again_is_noop_witness :
  w_fs (linked_once Node16) !! ["b"; "l"] = Some (NLink ["a"; "file.txt"]) ∧
  symlink Node16 1 ["a"; "file.txt"] ["b"; "l"] None (linked_once Node16) =
    (Ok tt, linked_once Node16) ∧
  (remove Node16 ["b"; "l"] ;;; lift (symlinkFile ["a"; "file.txt"] ["b"; "l"]))
    (linked_once Node16) = (Fail ENOTDIR, linked_once Node16).
Proof.
  split; [by vm_compute|]. split; [|by vm_compute].
  pose (run := symlink Node16 1 ["a"; "file.txt"] ["b"; "l"] None
                 (World (w_fs (linked_once Node16)) tt)).
  destruct (symlink_again_is_noop Node16 1 ["a"; "file.txt"] ["b"; "l"] None
              (w_fs (linked_once Node16)) tt run.1 run.2) as [Hsame Hok].
  - apply wfb_wf. vm_compute. reflexivity.
  - reflexivity.
  - vm_compute. reflexivity.
  - vm_compute. discriminate.
  - apply surjective_pairing.
  - rewrite (world_eta (linked_once Node16)) at 1. destruct (w_user (linked_once Node16)).
    fold run. rewrite (surjective_pairing run), Hsame, Hok.
    + by vm_compute.
    + by vm_compute.
    + exists (NFile "data"). by vm_compute.
Defined.

Lemma symlink_file_exclusive_or_absent_witness :
  symlink Node12 1 ["a"; "file.txt"] ["b"] (Some SYMLINK_EXCL) (World link_fs tt) =
    (Fail EEXIST, World link_fs tt) ∧
  symlink Node12 1 ["a"; "file.txt"] ["b"; "l"] (Some SYMLINK_EXCL) (World link_fs tt) =
    (Ok tt, World (<[ ["b"; "l"] := NLink ["a"; "file.txt"] ]> link_fs) tt).
Proof.
  destruct (symlink_file_exclusive_or_absent Node12 1 ["a"; "file.txt"] ["b"]
              (Some SYMLINK_EXCL) link_fs tt (NFile "data")) as (_ & Hcollide & _);
    [by vm_compute|done|].
  destruct (symlink_file_exclusive_or_absent Node12 1 ["a"; "file.txt"] ["b"; "l"]
              (Some SYMLINK_EXCL) link_fs tt (NFile "data")) as (_ & _ & Hfresh);
    [by vm_compute|done|].
  split.
  - apply Hcollide; [reflexivity|]. by exists NDir.
  - apply Hfresh; [apply wfb_wf; by vm_compute|by vm_compute..].
Defined.

(** C4 as stated fails: the reconciliation walk is not a post-order walk.
    A post-order walk visits [old/x] and then [old]; the reconciliation
    walk visits [old], removes it, and never visits [old/x]. *)
Lemma reconcile_is_not_postorder :
  reconcile_calls Node12 = [["keep"]; ["old"]] ∧
  postorder_calls Node12 = [["keep"]; ["old"; "x"]; ["old"]] ∧
  reconcile_calls Node12 ≠ postorder_calls Node12 ∧
  truthy (Z.land (arg_bits (flags (prune_options Node12 ["dst"]))) WALK_FILEFIRST) = false.
Proof. split_and!; by vm_compute. Qed.

Lemma reconcile_is_preorder_witness :
  let run := __walk 3 [] (observed_prune Node12 ["dst"])
               (World kept_fs ([], Some kept_set)) in
  run.1 = Ok tt ∧
  e_path <$> trace run.2 = [["keep"]; ["old"]; ["sub"]; ["sub"; "b"]; ["sub"; "a"]] ∧
  __walk 3 [] (prune_options Node12 ["dst"]) (World kept_fs (Some kept_set)) =
    (run.1, erase run.2) ∧
  preorder (trace run.2) ∧ pruned (trace run.2) ∧
  (∀ e, e ∈ trace run.2 → verdict Node12 ["dst"] kept_set (w_fs run.2) e) ∧
  entered ["dst"] kept_set kept_fs (trace run.2).
Proof.
  split; [by vm_compute|]. split; [by vm_compute|].
  destruct (reconcile_is_preorder Node12 3 ["dst"] kept_fs kept_set
              (__walk 3 [] (observed_prune Node12 ["dst"])
                 (World kept_fs ([], Some kept_set))).1
              (__walk 3 [] (observed_prune Node12 ["dst"])
                 (World kept_fs ([], Some kept_set))).2)
    as (Hsame & _ & Hpre & Hpr & Hverdict & Hentered).
  - apply surjective_pairing.
  - split_and!; [done..|]. apply Hentered.
    + apply wfb_wf. by vm_compute.
    + by vm_compute.
Defined.

(** Since Node 16 the same reconciliation stops at the first stale file
    inside a directory it keeps: the removal of [sub/b] is rejected, and
    [sub/a] is not visited. *)
Example reconcile_rejects_stale_file :
  let run := __walk 3 [] (observed_prune Node16 ["dst"])
               (World kept_fs ([], Some kept_set)) in
  run.1 = Fail ENOTDIR ∧
  e_path <$> trace run.2 = [["keep"]; ["old"]; ["sub"]; ["sub"; "b"]] ∧
  w_fs run.2 !! ["dst"; "sub"; "b"] = Some (NFile "b").
Proof. split_and!; by vm_compute. Qed.

Lemma prune_removes_exactly_unrecorded_witness :
  (∃ w', __copy Node12 3 ["walk"] ["copy"] (Some COPY_RMNONEXISTENT) (World littered_fs tt) =
           (Ok tt, w') ∧
     w_fs w' !! ["copy"; "junk"] = None ∧
     w_fs w' !! ["copy"; "old"; "x"] = None ∧
     w_fs w' !! ["copy"; "p1"; "p1f1.txt"] = Some (NFile "p1f1") ∧
     ∃ fmid V,
       copy_primary 3 ["walk"] ["copy"] (Some COPY_RMNONEXISTENT)
         (World littered_fs (Some [])) = (Ok tt, World fmid (Some V)) ∧
       ∀ k nd, w_fs w' !! k = Some nd ↔ fmid !! k = Some nd ∧ (inside ["copy"] k → k ∈ V)) ∧
  (∃ w', __symlink Node12 3 ["walk"] ["copy"] (Some SYMLINK_RMNONEXISTENT)
           (World littered_fs tt) = (Ok tt, w') ∧
     w_fs w' !! ["copy"; "junk"] = None ∧
     w_fs w' !! ["copy"; "old"; "x"] = None ∧
     w_fs w' !! ["copy"; "p1"; "p1f1.txt"] = Some (NLink ["walk"; "p1"; "p1f1.txt"]) ∧
     ∃ fmid V,
       symlink_primary Node12 3 ["walk"] ["copy"] (Some SYMLINK_RMNONEXISTENT)
         (World littered_fs (Some [])) = (Ok tt, World fmid (Some V)) ∧
       ∀ k nd, w_fs w' !! k = Some nd ↔ fmid !! k = Some nd ∧ (inside ["copy"] k → k ∈ V)).
Proof.
  assert (wf littered_fs) as Hwf by (apply wfb_wf; by vm_compute).
  split.
  - destruct (prune_removes_exactly_unrecorded Node12 3 ["walk"] ["copy"]
                (Some COPY_RMNONEXISTENT) littered_fs tt Hwf) as [Hcopy _].
    destruct (Hcopy eq_refl) as [Hexact Hcompletes].
    pose (mid := copy_primary 3 ["walk"] ["copy"] (Some COPY_RMNONEXISTENT)
                   (World littered_fs (Some []))).
    destruct (Hcompletes eq_refl (w_fs mid.2) (default [] (w_user mid.2))) as [w' Hw'].
    + by vm_compute.
    + by vm_compute.
    + vm_compute. lia.
    + exists w'. split; [exact Hw'|].
      split_and!; [| | |exact (Hexact w' Hw')];
        assert (w' = (__copy Node12 3 ["walk"] ["copy"] (Some COPY_RMNONEXISTENT)
                        (World littered_fs tt)).2) as -> by (by rewrite Hw');
        by vm_compute.
  - destruct (prune_removes_exactly_unrecorded Node12 3 ["walk"] ["copy"]
                (Some SYMLINK_RMNONEXISTENT) littered_fs tt Hwf) as [_ Hlink].
    destruct (Hlink eq_refl) as [Hexact Hcompletes].
    pose (mid := symlink_primary Node12 3 ["walk"] ["copy"] (Some SYMLINK_RMNONEXISTENT)
                   (World littered_fs (Some []))).
    destruct (Hcompletes eq_refl (w_fs mid.2) (default [] (w_user mid.2))) as [w' Hw'].
    + by vm_compute.
    + by vm_compute.
    + vm_compute. lia.
    + exists w'. split; [exact Hw'|].
      split_and!; [| | |exact (Hexact w' Hw')];
        assert (w' = (__symlink Node12 3 ["walk"] ["copy"] (Some SYMLINK_RMNONEXISTENT)
                        (World littered_fs tt)).2) as -> by (by rewrite Hw');
        by vm_compute.
Defined.

(** Since Node 16 the removal of a stale file is rejected, and so is the
    mirror that meets one: [copy/junk] is still there. *)
Example mirror_rejects_stale_file :
  (mirrored Node12).1 = Ok tt ∧
  w_fs (mirrored Node12).2 !! ["copy"; "junk"] = None ∧
  (mirrored Node16).1 = Fail ENOTDIR ∧
  w_fs (mirrored Node16).2 !! ["copy"; "junk"] = Some (NFile "j").
Proof. split_and!; by vm_compute. Qed.

Lemma copy_directory_exclusive_keeps_existing_witness :
  copy Node12 3 ["walk"] ["copy"] (Some COPY_EXCL) (World crowded_fs tt) =
    (Fail EEXIST, World crowded_fs tt) ∧
  (copy Node12 3 ["walk"] ["copy"] (Some COPY_EXCL) (World example_tree tt)).1 = Ok tt ∧
  example_tree ⊆
    w_fs (copy Node12 3 ["walk"] ["copy"] (Some COPY_EXCL) (World example_tree tt)).2 ∧
  w_fs (copy Node12 3 ["walk"] ["copy"] (Some COPY_EXCL) (World example_tree tt)).2
    !! ["copy"; "p1"; "p1f2.txt"] = Some (NFile "p1f2").
Proof.
  split; [by vm_compute|]. split; [by vm_compute|].
  destruct (copy_directory_exclusive_keeps_existing Node12 3 ["walk"] ["copy"]
              (Some COPY_EXCL) example_tree tt
              (copy Node12 3 ["walk"] ["copy"] (Some COPY_EXCL) (World example_tree tt)).1
              (copy Node12 3 ["walk"] ["copy"] (Some COPY_EXCL) (World example_tree tt)).2)
    as [Hsub Hcopied].
  - apply wfb_wf. by vm_compute.
  - by vm_compute.
  - reflexivity.
  - apply surjective_pairing.
  - split; [exact Hsub|].
    apply (Hcopied) with (q := ["p1"; "p1f2.txt"]); [by vm_compute|done|by vm_compute].
Defined.

(** Without [COPY_EXCL] the file that is in the way is overwritten. *)
Example copy_directory_overwrites :
  (copy Node12 3 ["walk"] ["copy"] None (World crowded_fs tt)).1 = Ok tt ∧
  w_fs (copy Node12 3 ["walk"] ["copy"] None (World crowded_fs tt)).2 !! ["copy"; "f1.txt"] =
    Some (NFile "f1").
Proof. split; by vm_compute. Qed.
